(** * Verification of stract's ranking collector and index lifecycle

    Shallow embedding of
    - [crates/core/src/collector/top_docs.rs]: [ScoredDoc], [BucketCount],
      [BucketCollector], [TopDocs::for_segment], [TopSegmentCollector],
      [TweakedScoreTopCollector::merge_fruits] and
      [TopTweakedScoreSegmentCollector];
    - [core/src/inverted_index.rs]: [retrieve_websites],
      [merge_into_max_segments] and [merge].

    Scores ([f64] in the source) are modelled as exact rationals [Q];
    bucket keys ([Prehashed], 128 bit) and simhashes ([u64]) as [Z]. *)

From Stdlib Require Import ZArith QArith Qfield Permutation Sorted Lia Lqa.
From stdpp Require Import base gmap list strings.

Open Scope Z_scope.

(* ------------------------------------------------------------------ *)
(** ** Collector data model (collector/top_docs.rs, collector/mod.rs) *)

Module Collector.

(** [Hashes { site, title, url, url_without_tld, simhash }] *)
Record Hashes := mkHashes {
  site : Z;
  title : Z;
  url : Z;
  url_without_tld : Z;
  simhash : Z
}.

(** [SegmentDoc { hashes, id, segment, score }]; [Doc::score] is
    [score.total], kept here directly as the total. *)
Record SegmentDoc := mkSegmentDoc {
  hashes : Hashes;
  id : Z;
  segment : Z;
  score : Q
}.

(** [config::CollectorConfig] *)
Record CollectorConfig := mkCollectorConfig {
  site_penalty : Q;
  title_penalty : Q;
  url_penalty : Q;
  url_without_tld_penalty : Q;
  max_docs_considered : N
}.

(** [ScoredDoc { doc, adjusted_score }] *)
Record ScoredDoc := mkScoredDoc {
  doc : SegmentDoc;
  adjusted_score : Q
}.

(** [impl From<T> for ScoredDoc<T>]: the adjusted score starts as the raw
    score. *)
Definition scored_of (d : SegmentDoc) : ScoredDoc :=
  mkScoredDoc d (score d).

(** [impl Ord for ScoredDoc]: [self.adjusted_score.total_cmp(&other.adjusted_score)]. *)
Definition scored_cmp (a b : ScoredDoc) : comparison :=
  Qcompare (adjusted_score a) (adjusted_score b).

(** [impl PartialEq for ScoredDoc]: equality of the adjusted scores. *)
Definition scored_eq (a b : ScoredDoc) : bool :=
  Qeq_bool (adjusted_score a) (adjusted_score b).

(** [BucketCount { config, buckets: HashMap<Prehashed, usize> }]: one map,
    shared by the four axes. *)
Record BucketCount := mkBucketCount {
  config : CollectorConfig;
  buckets : gmap Z nat
}.

(** [BucketCount::new] *)
Definition bucket_count_new (cfg : CollectorConfig) : BucketCount :=
  mkBucketCount cfg ∅.

(** [*self.buckets.get(&k).unwrap_or(&0)] *)
Definition taken (m : gmap Z nat) (k : Z) : nat :=
  match m !! k with Some n => n | None => 0%nat end.

Definition qnat (n : nat) : Q := inject_Z (Z.of_nat n).

(** [BucketCount::adjust_score] *)
Definition adjust_score (bc : BucketCount) (sd : ScoredDoc) : ScoredDoc :=
  let h := hashes (doc sd) in
  let cfg := config bc in
  let taken_sites := taken (buckets bc) (site h) in
  let taken_urls := taken (buckets bc) (url h) in
  let taken_urls_without_tld := taken (buckets bc) (url_without_tld h) in
  let taken_titles := taken (buckets bc) (title h) in
  let adjuster :=
    (1 / (1
         + qnat taken_sites * site_penalty cfg
         + qnat taken_urls * url_penalty cfg
         + qnat taken_urls_without_tld * url_without_tld_penalty cfg
         + qnat taken_titles * title_penalty cfg))%Q in
  mkScoredDoc (doc sd) (score (doc sd) * adjuster)%Q.

(** [*self.buckets.entry(k).or_default() += 1] *)
Definition bump (m : gmap Z nat) (k : Z) : gmap Z nat :=
  <[k := S (taken m k)]> m.

(** [BucketCount::update_counts]: site, url, url_without_tld, title, in
    this order, all into the same map. *)
Definition update_counts (bc : BucketCount) (sd : ScoredDoc) : BucketCount :=
  let h := hashes (doc sd) in
  mkBucketCount (config bc)
    (bump (bump (bump (bump (buckets bc) (site h)) (url h))
                (url_without_tld h)) (title h)).

(** [BucketCollector { count, documents: MinMaxHeap<ScoredDoc>, top_n }];
    the heap is kept as the multiset (list) of its elements. *)
Record BucketCollector := mkBucketCollector {
  count : BucketCount;
  documents : list ScoredDoc;
  top_n : nat
}.

(** The build and machine the code runs on, as far as the collector
    depends on them: whether [usize] arithmetic is overflow-checked (a
    debug build panics on overflow, a release build wraps), and the
    largest capacity for which [MinMaxHeap::with_capacity] (a
    [Vec::with_capacity] of [ScoredDoc<SegmentDoc>]) returns: above
    [isize::MAX / size_of] it panics with "capacity overflow", and a failed
    allocation aborts.  [usize] is 64 bits wide. *)
Record Target := mkTarget {
  overflow_checks : bool;
  max_heap_capacity : N
}.

Definition usize_modulus : N := 2 ^ 64.

(** [x + y] on [usize]: [None] is the overflow panic of a checked build. *)
Definition usize_add (t : Target) (x y : N) : option N :=
  if (x + y <? usize_modulus)%N then Some (x + y)%N
  else if overflow_checks t then None
  else Some ((x + y) mod usize_modulus)%N.

(** [usize] addition on the [usize] fields kept as [nat]. *)
Definition usize_add_nat (t : Target) (x y : nat) : option nat :=
  option_map N.to_nat (usize_add t (N.of_nat x) (N.of_nat y)).

(** Whether [MinMaxHeap::with_capacity(config.max_docs_considered + 1)]
    returns. *)
Definition heap_ok (t : Target) (cfg : CollectorConfig) : bool :=
  match usize_add t (max_docs_considered cfg) 1 with
  | None => false
  | Some cap => (cap <=? max_heap_capacity t)%N
  end.

(** [BucketCollector::new]: [assert!(top_n > 0)] panics, then the heap is
    created with capacity [max_docs_considered + 1]; a panic is [None]. *)
Definition new (t : Target) (top_n : nat) (cfg : CollectorConfig) : option BucketCollector :=
  if Nat.eqb top_n 0 then None
  else if heap_ok t cfg then Some (mkBucketCollector (bucket_count_new cfg) [] top_n)
  else None.

(** [BucketCollector::insert]: score adjusted against the current counts,
    then pushed on the heap. *)
Definition insert (c : BucketCollector) (d : SegmentDoc) : BucketCollector :=
  mkBucketCollector (count c)
    (adjust_score (count c) (scored_of d) :: documents c) (top_n c).

(** A collector after a sequence of inserts. *)
Definition insert_all (c : BucketCollector) (ds : list SegmentDoc) : BucketCollector :=
  fold_left insert ds c.

(** [MinMaxHeap::pop_max] on a heap whose elements are [l]: a maximal
    element and the remaining ones.  Which of several equal maxima is taken
    is left to the heap; this one takes the first, the statements below hold
    for any [pop_max] with the heap's contract [pop_max_spec]. *)
Fixpoint pop_first_max (l : list ScoredDoc) : option (ScoredDoc * list ScoredDoc) :=
  match l with
  | [] => None
  | x :: t =>
      match pop_first_max t with
      | None => Some (x, [])
      | Some (m, r) =>
          if Qle_bool (adjusted_score m) (adjusted_score x) then Some (x, t)
          else Some (m, x :: r)
      end
  end.

(** The contract of [MinMaxHeap::pop_max]. *)
Definition pop_max_spec (pop_max : list ScoredDoc -> option (ScoredDoc * list ScoredDoc)) : Prop :=
  (forall l, pop_max l = None -> l = []) /\
  (forall l x r, pop_max l = Some (x, r) ->
     Permutation l (x :: r) /\
     Forall (fun y => (adjusted_score y <= adjusted_score x)%Q) r).

Section Heap.

Variable pop_max : list ScoredDoc -> option (ScoredDoc * list ScoredDoc).

(** The [simhash::Table] of near-duplicate fingerprints: only its
    [default], [contains] and [insert] are used. *)
Variable SimTable : Type.
Variable sim_default : SimTable.
Variable sim_contains : SimTable -> Z -> bool.
Variable sim_insert : SimTable -> Z -> SimTable.

(** The [while let Some(mut best_doc) = self.documents.peek_max_mut()] loop
    of [update_best_doc]: re-adjust the maximum, stop when its score did not
    change.  Each element changes at most once per call (the counts are
    fixed during it), so [S (length heap)] rounds suffice. *)
Fixpoint update_best_loop (fuel : nat) (bc : BucketCount) (heap : list ScoredDoc)
  : list ScoredDoc :=
  match fuel with
  | O => heap
  | S f =>
      match pop_max heap with
      | None => heap
      | Some (best, rest) =>
          let best' := adjust_score bc best in
          if Qeq_bool (adjusted_score best') (adjusted_score best)
          then best' :: rest
          else update_best_loop f bc (best' :: rest)
      end
  end.

(** [BucketCollector::update_best_doc] *)
Definition update_best_doc (bc : BucketCount) (heap : list ScoredDoc) : list ScoredDoc :=
  if Nat.leb (length heap) 1 then heap
  else update_best_loop (S (length heap)) bc heap.

(** The [while let Some(best_doc) = self.documents.pop_max()] loop of
    [into_sorted_vec]; returns [(res, simhash_dups)].  Every round pops one
    element, so [length heap] rounds suffice. *)
Fixpoint sorted_loop (fuel : nat) (de_rank_similar : bool) (top_n : nat)
    (bc : BucketCount) (heap : list ScoredDoc) (res dups : list ScoredDoc)
    (tbl : SimTable) : list ScoredDoc * list ScoredDoc :=
  match fuel with
  | O => (res, dups)
  | S f =>
      match pop_max heap with
      | None => (res, dups)
      | Some (best_doc, heap) =>
          let h := hashes (doc best_doc) in
          let '(is_dup, tbl) :=
            if negb (Z.eqb (simhash h) 0) && de_rank_similar then
              if sim_contains tbl (simhash h) then (true, tbl)
              else (false, sim_insert tbl (simhash h))
            else (false, tbl) in
          if is_dup then
            sorted_loop f de_rank_similar top_n bc heap res (dups ++ [best_doc]) tbl
          else
            let '(bc, heap) :=
              if de_rank_similar then
                let bc := update_counts bc best_doc in
                (bc, update_best_doc bc heap)
              else (bc, heap) in
            let res := res ++ [best_doc] in
            if Nat.eqb (length res) top_n then (res, dups)
            else sorted_loop f de_rank_similar top_n bc heap res dups tbl
      end
  end.

(** [BucketCollector::into_sorted_vec], keeping each emitted document's
    adjusted score at the time it was popped. *)
Definition into_sorted_vec_scored (c : BucketCollector) (de_rank_similar : bool)
  : list ScoredDoc :=
  let '(res, dups) :=
    sorted_loop (length (documents c)) de_rank_similar (top_n c) (count c)
      (documents c) [] [] sim_default in
  res ++ take (top_n c - length res) dups.

(** [BucketCollector::into_sorted_vec] *)
Definition into_sorted_vec (c : BucketCollector) (de_rank_similar : bool)
  : list SegmentDoc :=
  map doc (into_sorted_vec_scored c de_rank_similar).

End Heap.

(** The [simhash::Table] used in the concrete runs below.
    Modelled from the spec: [simhash::Table] (not in the sources) is "a
    small in-memory SimHash similarity table"; here it holds the inserted
    fingerprints and contains exactly those. *)
Definition exact_table_contains (t : list Z) (h : Z) : bool :=
  existsb (Z.eqb h) t.

Definition exact_table_insert (t : list Z) (h : Z) : list Z := h :: t.

(** The collector run on concrete inputs. *)
Definition run_scored (c : BucketCollector) (de : bool) : list ScoredDoc :=
  into_sorted_vec_scored pop_first_max (list Z) [] exact_table_contains
    exact_table_insert c de.

End Collector.

Module CollectorPipeline.
Import Collector.

(** [MaxDocsConsidered { total_docs, segments }] *)
Record MaxDocsConsidered := mkMaxDocsConsidered {
  total_docs : nat;
  segments : nat
}.

(** The fields of [TopDocs] the collectors read (the column-field reader
    is the [read_hashes] function below). *)
Record TopDocs := mkTopDocs {
  td_top_n : nat;
  td_offset : nat;
  td_max_docs : option MaxDocsConsidered;
  td_de_rank_similar : bool;
  td_collector_config : CollectorConfig
}.

(** [TopSegmentCollector] without its column-field reader. *)
Record TopSegmentCollector := mkTopSegmentCollector {
  max_docs : option nat;
  num_docs_taken : nat;
  segment_ord : Z;
  bucket_collector : BucketCollector
}.

(** [TopDocs::for_segment]: [total_docs / segments] panics on a zero
    divisor, [top_n + offset] is a [usize] addition and
    [BucketCollector::new] may panic; a panic is [None]. *)
Definition for_segment (t : Target) (td : TopDocs) (segment_local_id : Z)
  : option TopSegmentCollector :=
  let max_docs :=
    match td_max_docs td with
    | None => Some None
    | Some m => if Nat.eqb (segments m) 0 then None
                else Some (Some (Nat.div (total_docs m) (segments m)))
    end in
  match max_docs with
  | None => None
  | Some md =>
      match usize_add_nat t (td_top_n td) (td_offset td) with
      | None => None
      | Some n =>
          match new t n (td_collector_config td) with
          | None => None
          | Some bc => Some (mkTopSegmentCollector md 0 segment_local_id bc)
          end
      end
  end.

(** [TopSegmentCollector::is_done] *)
Definition is_done (sc : TopSegmentCollector) : bool :=
  match max_docs sc with
  | Some m => Nat.leb m (num_docs_taken sc)
  | None => false
  end.

(** [DocAddress { segment, doc_id }] *)
Record DocAddress := mkDocAddress { segment : Z; doc_id : Z }.

(** [WebpagePointer { score, hashes, address }] *)
Record WebpagePointer := mkWebpagePointer {
  wp_score : Q;
  wp_hashes : Hashes;
  wp_address : DocAddress
}.

(** The [.map(|doc| WebpagePointer { .. })] of [merge_fruits]. *)
Definition to_pointer (d : SegmentDoc) : WebpagePointer :=
  mkWebpagePointer (Collector.score d) (hashes d) (mkDocAddress (Collector.segment d) (id d)).

Section Collect.

(** The reads of the column-field reader in [TopSegmentCollector::collect]:
    the four [get_hash] pairs and the simhash of a document. *)
Variable read_hashes : Z -> Hashes.
(** [ScoreSegmentTweaker::score] of the segment's scorer. *)
Variable segment_score : Z -> Q -> Q.

(** [TopSegmentCollector::collect]; [num_docs_taken += 1] does not
    overflow: with [max_docs] the count stays at most [max_docs], without it
    the count is bounded by the [u32] document ids of the segment. *)
Definition collect (sc : TopSegmentCollector) (d : Z) (s : Q) : TopSegmentCollector :=
  if is_done sc then sc
  else mkTopSegmentCollector (max_docs sc) (S (num_docs_taken sc)) (segment_ord sc)
         (insert (bucket_collector sc) (mkSegmentDoc (read_hashes d) d (segment_ord sc) s)).

(** [TopTweakedScoreSegmentCollector::collect] *)
Definition tweaked_collect (sc : TopSegmentCollector) (d : Z) (s : Q) : TopSegmentCollector :=
  if is_done sc then sc else collect sc d (segment_score d s).

(** The segment collector after tantivy feeds it the matching documents
    [(doc, score)] in order. *)
Definition tweaked_collect_all (sc : TopSegmentCollector) (xs : list (Z * Q)) : TopSegmentCollector :=
  fold_left (fun sc x => tweaked_collect sc (fst x) (snd x)) xs sc.

End Collect.

Section Harvest.

Variable pop_max : list ScoredDoc -> option (ScoredDoc * list ScoredDoc).
Variable SimTable : Type.
Variable sim_default : SimTable.
Variable sim_contains : SimTable -> Z -> bool.
Variable sim_insert : SimTable -> Z -> SimTable.

(** [TopSegmentCollector::harvest] *)
Definition harvest (sc : TopSegmentCollector) : list SegmentDoc :=
  into_sorted_vec pop_max SimTable sim_default sim_contains sim_insert (bucket_collector sc) true.

(** [TweakedScoreTopCollector::merge_fruits]; [None] is a panic of the
    [usize] addition [top_n + offset] or of [BucketCollector::new]. *)
Definition merge_fruits (t : Target) (td : TopDocs) (segment_fruits : list (list SegmentDoc))
  : option (list WebpagePointer) :=
  match usize_add_nat t (td_top_n td) (td_offset td) with
  | None => None
  | Some n =>
      match new t n (td_collector_config td) with
      | None => None
      | Some collector =>
          let collector := insert_all collector (concat segment_fruits) in
          let docs := into_sorted_vec pop_max SimTable sim_default sim_contains sim_insert
                        collector (td_de_rank_similar td) in
          Some (map to_pointer (take (td_top_n td) (drop (td_offset td) docs)))
      end
  end.

End Harvest.

End CollectorPipeline.

(* ------------------------------------------------------------------ *)
(** ** Retrieval: the primary-image filter (inverted_index.rs) *)

Module Retrieval.

(** [StoredPrimaryImage]: its [title_terms] and [description_terms]
    ([HashSet<String>]) as lists. *)
Record StoredPrimaryImage := mkStoredPrimaryImage {
  title_terms : list string;
  description_terms : list string
}.

(** The fields of [RetrievedWebpage] the filter and the snippet stage
    touch. *)
Record RetrievedWebpage := mkRetrievedWebpage {
  url : string;
  body : string;
  primary_image : option StoredPrimaryImage;
  snippet : string
}.

(** [DocAddress { segment, doc_id }] *)
Record DocAddress := mkDocAddress { segment : Z; doc_id : Z }.

(** [u8::to_ascii_lowercase] *)
Definition ascii_lower (c : Ascii.ascii) : Ascii.ascii :=
  let n := Ascii.nat_of_ascii c in
  if (65 <=? n)%nat && (n <=? 90)%nat then Ascii.ascii_of_nat (n + 32) else c.

(** [str::to_ascii_lowercase] *)
Fixpoint to_ascii_lowercase (s : string) : string :=
  match s with
  | EmptyString => EmptyString
  | String c s' => String (ascii_lower c) (to_ascii_lowercase s')
  end.

(** [HashSet::contains] *)
Definition contains (set : list string) (t : string) : bool :=
  existsb (String.eqb t) set.

(** The closure of the [.map(|mut doc| ...)] step of [retrieve_websites]. *)
Definition filter_image (terms : list string) (doc : RetrievedWebpage) : RetrievedWebpage :=
  match primary_image doc with
  | Some image =>
      if negb (forallb (fun term =>
                 contains (title_terms image) (to_ascii_lowercase term)
                 || contains (description_terms image) (to_ascii_lowercase term)) terms)
      then mkRetrievedWebpage (url doc) (body doc) None (snippet doc)
      else doc
  | None => doc
  end.

Section Retrieve.

(** [self.retrieve_doc(address, &searcher)]: the stored document, or an
    error. *)
Variable retrieve_doc : DocAddress -> option RetrievedWebpage.
(** [snippet::generate(query, &page.body, ...)]: a snippet or an error. *)
Variable generate_snippet : RetrievedWebpage -> option string.

Fixpoint with_snippets (pages : list RetrievedWebpage) : option (list RetrievedWebpage) :=
  match pages with
  | [] => Some []
  | page :: rest =>
      match generate_snippet page with
      | None => None
      | Some sn =>
          match with_snippets rest with
          | None => None
          | Some rest' =>
              Some (mkRetrievedWebpage (url page) (body page) (primary_image page) sn :: rest')
          end
      end
  end.

(** [InvertedIndex::retrieve_websites]; [terms] is [query.simple_terms()]. *)
Definition retrieve_websites (websites : list DocAddress) (terms : list string)
  : option (list RetrievedWebpage) :=
  let webpages := map (filter_image terms) (omap retrieve_doc websites) in
  with_snippets webpages.

End Retrieve.

End Retrieval.

(* ------------------------------------------------------------------ *)
(** ** Segment merging (inverted_index.rs) *)

Module Segments.

(** [tantivy::SegmentMeta]: its id and the documents it holds. *)
Record SegmentMeta := mkSegmentMeta {
  seg_id : Z;
  seg_docs : list Z
}.

(** [SegmentMeta::num_docs] *)
Definition num_docs (s : SegmentMeta) : Z := Z.of_nat (length (seg_docs s)).

(** [SegmentMergeCandidate { num_docs: u32, segments }] *)
Record SegmentMergeCandidate := mkSegmentMergeCandidate {
  cand_num_docs : Z;
  cand_segments : list SegmentMeta
}.

(** One step of the stable [sort_by_key(|b| Reverse(b.num_docs()))]:
    [s] goes after every element with as many documents or more. *)
Fixpoint insert_desc (s : SegmentMeta) (l : list SegmentMeta) : list SegmentMeta :=
  match l with
  | [] => [s]
  | y :: t => if Z.leb (num_docs s) (num_docs y) then y :: insert_desc s t else s :: l
  end.

(** [segments.sort_by_key(|b| std::cmp::Reverse(b.num_docs()))] (stable). *)
Definition sort_desc (l : list SegmentMeta) : list SegmentMeta :=
  fold_left (fun acc s => insert_desc s acc) l [].

Fixpoint first_min_from (l : list SegmentMergeCandidate) (j best : nat) (v : Z) : nat :=
  match l with
  | [] => best
  | c :: t =>
      if Z.ltb (cand_num_docs c) v then first_min_from t (S j) j (cand_num_docs c)
      else first_min_from t (S j) best v
  end.

(** [merge_segments.iter_mut().min_by(|a, b| a.num_docs.cmp(&b.num_docs))]:
    the index of the first candidate with the fewest documents. *)
Definition first_min (l : list SegmentMergeCandidate) : option nat :=
  match l with
  | [] => None
  | c :: t => Some (first_min_from t 1 0 (cand_num_docs c))
  end.

(** One round of [for segment in segments { ... }]: the [.unwrap()] of an
    empty [min_by] panics ([None]); [num_docs += ...] wraps at [u32]. *)
Definition assign (merge_segments : list SegmentMergeCandidate) (segment : SegmentMeta)
  : option (list SegmentMergeCandidate) :=
  match first_min merge_segments with
  | None => None
  | Some i =>
      match merge_segments !! i with
      | None => None
      | Some best =>
          Some (<[i := mkSegmentMergeCandidate
                         ((cand_num_docs best + num_docs segment) mod 2 ^ 32)
                         (cand_segments best ++ [segment])]> merge_segments)
      end
  end.

Fixpoint assign_all (merge_segments : list SegmentMergeCandidate) (segments : list SegmentMeta)
  : option (list SegmentMergeCandidate) :=
  match segments with
  | [] => Some merge_segments
  | s :: rest =>
      match assign merge_segments s with
      | None => None
      | Some ms => assign_all ms rest
      end
  end.

Definition empty_candidate : SegmentMergeCandidate := mkSegmentMergeCandidate 0 [].

Definition max_id (idx : list SegmentMeta) : Z := fold_right Z.max 0 (map seg_id idx).

Definition mem_id (ids : list Z) (s : SegmentMeta) : bool := existsb (Z.eqb (seg_id s)) ids.

(** [self.writer.merge(&segment_ids[..]).wait()] of tantivy (a dependency,
    not this repository): the segments with these ids are replaced by one
    new segment holding their documents, under an id not in use. *)
Definition tantivy_merge (ids : list Z) (idx : list SegmentMeta) : list SegmentMeta :=
  List.filter (fun s => negb (mem_id ids s)) idx ++
  [mkSegmentMeta (max_id idx + 1) (concat (map seg_docs (List.filter (mem_id ids) idx)))].

(** The final loop: merge each non-empty bucket. *)
Definition merge_buckets (buckets : list SegmentMergeCandidate) (idx : list SegmentMeta)
  : list SegmentMeta :=
  fold_left (fun idx m => tantivy_merge (map seg_id (cand_segments m)) idx)
    (List.filter (fun m => negb (bool_decide (cand_segments m = []))) buckets) idx.

(** [InvertedIndex::merge_into_max_segments]; the index is its list of
    segment metas, [None] is a panic. *)
Definition merge_into_max_segments (max_num_segments : Z) (idx : list SegmentMeta)
  : option (list SegmentMeta) :=
  if negb (Z.ltb 0 max_num_segments) then None
  else if Z.leb (Z.of_nat (length idx)) max_num_segments then Some idx
  else
    let num_segments := ((max_num_segments + 1) mod 2 ^ 32) / 2 in
    let merge_segments := repeat empty_candidate (Z.to_nat num_segments) in
    match assign_all merge_segments (sort_desc idx) with
    | None => None
    | Some buckets => Some (merge_buckets buckets idx)
    end.

End Segments.

Module IndexMerge.

(** A segment of [tantivy::IndexMeta]: [segment.id()], the files
    [segment.list_files()] names, and [segment.max_doc()]. *)
Record SegFiles := mkSegFiles {
  sf_id : Z;
  sf_files : list string;
  sf_max_doc : Z
}.

(** A file of an index directory: a segment file (the name of the index it
    was written by) or [meta.json] (the ids of its segments, in order). *)
Inductive Entry :=
| Data (written_by : string)
| Meta (segment_ids : list Z).

Definition Dir := gmap string Entry.

(** [for file in segment.list_files() { if p.exists() { fs::rename(p, self_path.join(&file)) } }]:
    a rename replaces a file of the same name. *)
Fixpoint move_files (files : list string) (self_dir other_dir : Dir) : Dir * Dir :=
  match files with
  | [] => (self_dir, other_dir)
  | file :: rest =>
      match other_dir !! file with
      | Some e => move_files rest (<[file := e]> self_dir) (delete file other_dir)
      | None => move_files rest self_dir other_dir
      end
  end.

(** The loop [for segment in other_meta.segments { ... }]. *)
Fixpoint merge_loop (ids : list Z) (other_segments : list SegFiles)
    (self_dir other_dir : Dir) (meta : list SegFiles) : Dir * Dir * list SegFiles :=
  match other_segments with
  | [] => (self_dir, other_dir, meta)
  | segment :: rest =>
      if existsb (Z.eqb (sf_id segment)) ids then merge_loop ids rest self_dir other_dir meta
      else
        let '(sd, od) := move_files (sf_files segment) self_dir other_dir in
        merge_loop ids rest sd od (meta ++ [segment])
  end.

Fixpoint insert_by_max_doc (s : SegFiles) (l : list SegFiles) : list SegFiles :=
  match l with
  | [] => [s]
  | y :: t => if Z.leb (sf_max_doc s) (sf_max_doc y) then y :: insert_by_max_doc s t else s :: l
  end.

(** [meta.segments.sort_by_key(|a| std::cmp::Reverse(a.max_doc()))] (stable). *)
Definition sort_by_max_doc_desc (l : list SegFiles) : list SegFiles :=
  fold_left (fun acc s => insert_by_max_doc s acc) l [].

(** [InvertedIndex::merge] on the two directories and segment lists (after
    both commits): it returns the new [self] directory; [fs::remove_dir_all]
    empties the other one. The function returns [Self], with no error case. *)
Definition merge (self_dir : Dir) (self_segments : list SegFiles)
    (other_dir : Dir) (other_segments : list SegFiles) : Dir * Dir :=
  let ids := map sf_id self_segments in
  let '(sd, _, meta) := merge_loop ids other_segments self_dir other_dir self_segments in
  let meta := sort_by_max_doc_desc meta in
  (<["meta.json" := Meta (map sf_id meta)]> sd, ∅).

End IndexMerge.

Module CollectorTests.
Import Collector.

Definition hs (k s : Z) : Hashes := mkHashes k k k k s.
Definition cfg1 : CollectorConfig := mkCollectorConfig 1 1 1 1 100.
Definition sdoc (h : Hashes) (i : Z) (s : Q) : SegmentDoc := mkSegmentDoc h i 0 s.

(** A debug build whose allocator grants a heap of a million documents. *)
Definition tgt : Target := mkTarget true 1000000.

Definition collector_of (n : nat) (cfg : CollectorConfig) (ds : list SegmentDoc) : BucketCollector :=
  match new tgt n cfg with
  | Some c => insert_all c ds
  | None => mkBucketCollector (bucket_count_new cfg) [] n
  end.

Definition ids_of (l : list ScoredDoc) : list Z := map (fun x => id (doc x)) l.

(** [tests::same_key_de_prioritised] *)
Example same_key_de_prioritised_run :
  ids_of (run_scored (collector_of 10 cfg1
    [sdoc (hs 1 12) 125 (3#1); sdoc (hs 2 123) 126 (31#10); sdoc (hs 2 1234) 127 (5#1)]) true)
  = [127; 125; 126].
Proof. vm_compute. reflexivity. Qed.

(** [tests::simhash_dedup] *)
Example simhash_dedup_run :
  ids_of (run_scored (collector_of 10 cfg1
    [sdoc (hs 1 1234) 125 (3#1); sdoc (hs 2 1234) 126 (31#10); sdoc (hs 3 1) 127 (5#1)]) true)
  = [127; 126; 125].
Proof. vm_compute. reflexivity. Qed.

Example same_key_top2_run :
  ids_of (run_scored (collector_of 2 cfg1
    [sdoc (hs 1 12) 125 (3#1); sdoc (hs 2 123) 126 (31#10); sdoc (hs 2 1234) 127 (5#1)]) true)
  = [127; 125].
Proof. vm_compute. reflexivity. Qed.

End CollectorTests.

Module CollectorProofs.
Import Collector.

(** *** Construction *)

(** Claim C10 (amended): [BucketCollector::new top_n config] panics when
    [top_n = 0] (its assertion) and also, for [top_n > 0], when the heap of
    capacity [config.max_docs_considered + 1] cannot be created: the
    addition overflows [usize] in a build with overflow checks, or the
    capacity (wrapped in a build without them) exceeds what
    [MinMaxHeap::with_capacity] grants.  Otherwise it builds an empty
    collector with that [top_n]. *)
Theorem new_panic_conditions :
  forall (t : Target) (n : nat) (cfg : CollectorConfig),
    match new t n cfg with
    | None => n = 0%nat \/ heap_ok t cfg = false
    | Some c => (0 < n)%nat /\ heap_ok t cfg = true /\ top_n c = n /\ documents c = [] /\
                count c = bucket_count_new cfg
    end.
Proof.
  intros t n cfg. unfold new.
  destruct (Nat.eqb_spec n 0) as [->|Hn]; [left; reflexivity|].
  destruct (heap_ok t cfg) eqn:Eh; [|right; reflexivity].
  simpl. repeat split; lia.
Qed.

(** A configuration considering [usize::MAX] documents. *)
Definition cfg_max_docs : CollectorConfig := mkCollectorConfig 1 1 1 1 (2 ^ 64 - 1).

(** A configuration considering [2^62] documents. *)
Definition cfg_2_62 : CollectorConfig := mkCollectorConfig 1 1 1 1 (2 ^ 62).

(** A 64-bit machine: [Vec::with_capacity] grants at most
    [isize::MAX / size_of::<ScoredDoc<SegmentDoc>>()] slots, and a scored
    document is wider than 2 bytes, so at most [(2^63 - 1) / 2]: a target
    granting that many allocates at least what any 64-bit machine does. *)
Definition heap_limit_64 : N := (2 ^ 63 - 1) / 2.

(** Claim C10 (counterexample): [top_n = 1 > 0] and still a panic.  With
    overflow checks, [max_docs_considered = usize::MAX] makes
    [max_docs_considered + 1] overflow; in a release build,
    [max_docs_considered = 2^62] asks [with_capacity] for more slots than a
    64-bit machine grants. *)
Lemma new_panics_with_positive_top_n :
  new (mkTarget true heap_limit_64) 1 cfg_max_docs = None /\
  new (mkTarget false heap_limit_64) 1 cfg_2_62 = None.
Proof. split; vm_compute; reflexivity. Qed.

(** *** Ordering of scored documents *)

(** The order the spec describes: adjusted score, then raw score, then the
    address [(segment_ord, doc_id)], a smaller address ranking first. *)
Definition tie_broken_cmp (a b : ScoredDoc) : comparison :=
  match Qcompare (adjusted_score a) (adjusted_score b) with
  | Eq =>
      match Qcompare (score (doc a)) (score (doc b)) with
      | Eq =>
          match Z.compare (segment (doc b)) (segment (doc a)) with
          | Eq => Z.compare (id (doc b)) (id (doc a))
          | o => o
          end
      | o => o
      end
  | o => o
  end.

Definition tie_a : ScoredDoc := mkScoredDoc (mkSegmentDoc (mkHashes 1 1 1 1 0) 1 0 2) 1.
Definition tie_b : ScoredDoc := mkScoredDoc (mkSegmentDoc (mkHashes 2 2 2 2 0) 2 0 1) 1.

(** Claim C6 (counterexample): two documents with equal adjusted scores and
    different raw scores compare [Equal] under [impl Ord for ScoredDoc],
    where the raw-score tie-break would rank one above the other. *)
Lemma scored_cmp_no_tie_break :
  scored_cmp tie_a tie_b = Eq /\ tie_broken_cmp tie_a tie_b = Gt.
Proof. split; reflexivity. Qed.

(** Claim C6 (amended): [impl Ord for ScoredDoc] compares the adjusted
    scores alone: two scored documents compare [Equal] (and are [==])
    exactly when their adjusted scores are equal, whatever their raw scores
    and addresses. *)
Theorem scored_cmp_adjusted_only :
  forall a b : ScoredDoc,
    ((adjusted_score a == adjusted_score b)%Q <-> scored_cmp a b = Eq) /\
    (scored_eq a b = true <-> scored_cmp a b = Eq).
Proof.
  intros a b. unfold scored_cmp, scored_eq.
  rewrite Qeq_alt, Qeq_bool_iff, Qeq_alt. tauto.
Qed.

(** *** Score adjustment *)

(** The counts after the documents [ts] have been taken, in order. *)
Definition taken_counts (cfg : CollectorConfig) (ts : list ScoredDoc) : BucketCount :=
  fold_left update_counts ts (bucket_count_new cfg).

Definition b2n (b : bool) : nat := if b then 1%nat else 0%nat.

(** Number of hash slots (site, url, url_without_tld, title) of the
    documents [ts] equal to [k]. *)
Definition slots (ts : list ScoredDoc) (k : Z) : nat :=
  list_sum (map (fun t => let h := hashes (doc t) in
    (b2n (Z.eqb (site h) k) + b2n (Z.eqb (url h) k) +
     b2n (Z.eqb (url_without_tld h) k) + b2n (Z.eqb (title h) k))%nat) ts).

(** The number of taken documents whose hash on one axis equals [k]. *)
Definition sharing (axis : Hashes -> Z) (ts : list ScoredDoc) (k : Z) : nat :=
  length (filter (fun t => Z.eqb (axis (hashes (doc t))) k) ts).

(** The adjusted score as the spec words it: each count is the number of
    already-taken documents sharing the key on that axis. *)
Definition spec_adjusted (cfg : CollectorConfig) (ts : list ScoredDoc) (sd : ScoredDoc) : Q :=
  let h := hashes (doc sd) in
  (score (doc sd) /
   (1 + qnat (sharing site ts (site h)) * site_penalty cfg
      + qnat (sharing url ts (url h)) * url_penalty cfg
      + qnat (sharing url_without_tld ts (url_without_tld h)) * url_without_tld_penalty cfg
      + qnat (sharing title ts (title h)) * title_penalty cfg))%Q.

Definition dup_taken : ScoredDoc := scored_of (mkSegmentDoc (mkHashes 1 1 1 1 0) 1 0 1).
Definition dup_cand : ScoredDoc := scored_of (mkSegmentDoc (mkHashes 1 1 1 1 0) 2 0 1).

(** Claim C1 (counterexample): one taken document whose four keys are all
    [1]; a candidate with the same keys, raw score 1 and all penalties 1 is
    adjusted to 1/17 (the shared map holds 4 under key [1]), not to
    1/(1+1+1+1+1) = 1/5. *)
Lemma adjust_score_shared_map :
  (adjusted_score (adjust_score (taken_counts CollectorTests.cfg1 [dup_taken]) dup_cand)
     == 1 # 17)%Q /\
  (spec_adjusted CollectorTests.cfg1 [dup_taken] dup_cand == 1 # 5)%Q.
Proof. split; vm_compute; reflexivity. Qed.

Lemma taken_bump (m : gmap Z nat) (k' k : Z) :
  taken (bump m k') k = (taken m k + b2n (Z.eqb k' k))%nat.
Proof.
  unfold bump, taken. destruct (Z.eqb_spec k' k) as [->|Hne].
  - rewrite lookup_insert_eq. simpl. lia.
  - rewrite lookup_insert_ne by congruence. simpl. lia.
Qed.

Lemma taken_update_counts (bc : BucketCount) (sd : ScoredDoc) (k : Z) :
  taken (buckets (update_counts bc sd)) k =
  (taken (buckets bc) k + slots [sd] k)%nat.
Proof.
  unfold update_counts, slots. simpl. rewrite !taken_bump. lia.
Qed.

Lemma slots_app (ts us : list ScoredDoc) (k : Z) :
  slots (ts ++ us) k = (slots ts k + slots us k)%nat.
Proof. unfold slots. rewrite map_app, list_sum_app. reflexivity. Qed.

Lemma taken_fold_update_counts (ts : list ScoredDoc) (bc : BucketCount) (k : Z) :
  taken (buckets (fold_left update_counts ts bc)) k = (taken (buckets bc) k + slots ts k)%nat.
Proof.
  revert bc. induction ts as [|t ts IH]; intros bc; simpl.
  - unfold slots. simpl. lia.
  - rewrite IH, taken_update_counts.
    change (t :: ts) with ([t] ++ ts). rewrite slots_app. lia.
Qed.

Lemma taken_counts_slots (cfg : CollectorConfig) (ts : list ScoredDoc) (k : Z) :
  taken (buckets (taken_counts cfg ts)) k = slots ts k.
Proof.
  unfold taken_counts. rewrite taken_fold_update_counts. reflexivity.
Qed.

(** Claim C1 (amended): after the documents [ts] have been taken, a
    candidate with raw score [s] is adjusted to
    [s / (1 + c_site*p_site + c_url*p_url + c_url_no_tld*p_no_tld + c_title*p_title)]
    where each count is read from the one map shared by the four axes:
    the number of site, url, url_without_tld and title keys of the taken
    documents equal to the candidate's key on that axis. *)
Theorem adjust_score_formula :
  forall (cfg : CollectorConfig) (ts : list ScoredDoc) (sd : ScoredDoc),
    let h := hashes (doc sd) in
    (adjusted_score (adjust_score (taken_counts cfg ts) sd) ==
     score (doc sd) /
     (1 + qnat (slots ts (site h)) * site_penalty cfg
        + qnat (slots ts (url h)) * url_penalty cfg
        + qnat (slots ts (url_without_tld h)) * url_without_tld_penalty cfg
        + qnat (slots ts (title h)) * title_penalty cfg))%Q.
Proof.
  intros cfg ts sd h. unfold adjust_score. simpl.
  rewrite !taken_counts_slots.
  assert (Hcfg : config (taken_counts cfg ts) = cfg).
  { unfold taken_counts.
    assert (Hg : forall bc, config (fold_left update_counts ts bc) = config bc).
    { induction ts as [|t ts IH]; intros bc; simpl; [reflexivity|].
      rewrite IH. reflexivity. }
    apply Hg. }
  rewrite Hcfg. unfold Qdiv. rewrite Qmult_1_l. reflexivity.
Qed.


(** *** The emission loop *)

(** Every element's stored score is at least its score against [bc]. *)
Definition Fresh (bc : BucketCount) (heap : list ScoredDoc) : Prop :=
  Forall (fun y => (adjusted_score (adjust_score bc y) <= adjusted_score y)%Q) heap.

(** Every element of [heap] scores at most every element of [res]. *)
Definition AllLe (heap res : list ScoredDoc) : Prop :=
  Forall (fun x => Forall (fun y => (adjusted_score y <= adjusted_score x)%Q) heap) res.

(** Non-increasing adjusted scores. *)
Definition desc (a b : ScoredDoc) : Prop := (adjusted_score b <= adjusted_score a)%Q.

Definition cfg_nonneg (cfg : CollectorConfig) : Prop :=
  (0 <= site_penalty cfg /\ 0 <= title_penalty cfg /\
   0 <= url_penalty cfg /\ 0 <= url_without_tld_penalty cfg)%Q.

Definition counts_le (bc bc' : BucketCount) : Prop :=
  forall k, (taken (buckets bc) k <= taken (buckets bc') k)%nat.

Definition denom (bc : BucketCount) (d : SegmentDoc) : Q :=
  let h := hashes d in
  let cfg := config bc in
  (1 + qnat (taken (buckets bc) (site h)) * site_penalty cfg
     + qnat (taken (buckets bc) (url h)) * url_penalty cfg
     + qnat (taken (buckets bc) (url_without_tld h)) * url_without_tld_penalty cfg
     + qnat (taken (buckets bc) (title h)) * title_penalty cfg)%Q.

Lemma adjust_score_denom (bc : BucketCount) (sd : ScoredDoc) :
  adjust_score bc sd = mkScoredDoc (doc sd) (score (doc sd) * (1 / denom bc (doc sd)))%Q.
Proof. reflexivity. Qed.

Lemma adjust_score_idem (bc : BucketCount) (sd : ScoredDoc) :
  adjust_score bc (adjust_score bc sd) = adjust_score bc sd.
Proof. reflexivity. Qed.

Lemma qnat_nonneg (n : nat) : (0 <= qnat n)%Q.
Proof. unfold qnat, Qle. simpl. lia. Qed.

Lemma qnat_le (n m : nat) : (n <= m)%nat -> (qnat n <= qnat m)%Q.
Proof. intros H. unfold qnat. rewrite <- Zle_Qle. lia. Qed.

Lemma term_le (n m : nat) (p : Q) :
  (n <= m)%nat -> (0 <= p)%Q -> (qnat n * p <= qnat m * p)%Q.
Proof. intros H Hp. apply Qmult_le_compat_r; [apply qnat_le|]; assumption. Qed.

Lemma term_nonneg (n : nat) (p : Q) : (0 <= p)%Q -> (0 <= qnat n * p)%Q.
Proof. intros Hp. apply Qmult_le_0_compat; [apply qnat_nonneg | assumption]. Qed.

Lemma one_le_sum (a b c e : Q) :
  (0 <= a -> 0 <= b -> 0 <= c -> 0 <= e -> 1 <= 1 + a + b + c + e)%Q.
Proof. intros. lra. Qed.

Lemma denom_ge_1 (bc : BucketCount) (d : SegmentDoc) :
  cfg_nonneg (config bc) -> (1 <= denom bc d)%Q.
Proof.
  intros (H1 & H2 & H3 & H4). unfold denom.
  pose proof (term_nonneg (taken (buckets bc) (site (hashes d))) _ H1).
  pose proof (term_nonneg (taken (buckets bc) (url (hashes d))) _ H3).
  pose proof (term_nonneg (taken (buckets bc) (url_without_tld (hashes d))) _ H4).
  pose proof (term_nonneg (taken (buckets bc) (title (hashes d))) _ H2).
  apply one_le_sum; assumption.
Qed.

Lemma denom_mono (bc bc' : BucketCount) (d : SegmentDoc) :
  config bc = config bc' -> cfg_nonneg (config bc) -> counts_le bc bc' ->
  (denom bc d <= denom bc' d)%Q.
Proof.
  intros Hc (H1 & H2 & H3 & H4) Hle. unfold denom. rewrite <- Hc.
  repeat apply Qplus_le_compat; try apply Qle_refl; apply term_le; auto.
Qed.

Lemma inv_antitone (a b : Q) : (0 < a)%Q -> (a <= b)%Q -> (1 / b <= 1 / a)%Q.
Proof.
  intros Ha Hab.
  assert (Hb : (0 < b)%Q) by (eapply Qlt_le_trans; eauto).
  apply Qle_shift_div_r; [assumption|].
  assert (E : (1 / a * b == b / a)%Q) by (unfold Qdiv; ring). rewrite E.
  apply Qle_shift_div_l; [assumption|]. rewrite Qmult_1_l. assumption.
Qed.

Lemma adjust_mono (bc bc' : BucketCount) (y : ScoredDoc) :
  config bc = config bc' -> cfg_nonneg (config bc) -> counts_le bc bc' ->
  (0 <= score (doc y))%Q ->
  (adjusted_score (adjust_score bc' y) <= adjusted_score (adjust_score bc y))%Q.
Proof.
  intros Hc Hn Hle Hs. rewrite !adjust_score_denom. simpl.
  rewrite (Qmult_comm (score _)), (Qmult_comm (score _) (1 / _)).
  apply Qmult_le_compat_r; [|assumption].
  apply inv_antitone.
  - eapply Qlt_le_trans; [|apply denom_ge_1; eassumption]. reflexivity.
  - apply denom_mono; assumption.
Qed.

Lemma counts_le_update (bc : BucketCount) (sd : ScoredDoc) :
  counts_le bc (update_counts bc sd).
Proof. intros k. rewrite taken_update_counts. lia. Qed.

Lemma Forall_perm {A} (P : A -> Prop) (l l' : list A) :
  Permutation l l' -> Forall P l -> Forall P l'.
Proof.
  intros HP. induction HP; intros HF; auto.
  - inversion_clear HF. constructor; auto.
  - inversion_clear HF as [|? ? H1 H2]. inversion_clear H2.
    repeat constructor; auto.
Qed.

Lemma Forall_map_doc (P : SegmentDoc -> Prop) (l l' : list ScoredDoc) :
  Permutation (map doc l) (map doc l') ->
  Forall (fun y => P (doc y)) l -> Forall (fun y => P (doc y)) l'.
Proof.
  intros HP HF. apply Forall_map.
  apply (Forall_perm _ _ _ HP). apply Forall_map. assumption.
Qed.

Lemma StronglySorted_snoc {A} (R : A -> A -> Prop) (l : list A) (x : A) :
  StronglySorted R l -> Forall (fun a => R a x) l -> StronglySorted R (l ++ [x]).
Proof.
  induction l as [|a l IH]; intros HS HF; simpl.
  - repeat constructor.
  - inversion HS as [|? ? HS' Ha]; subst. inversion HF as [|? ? Hax HF']; subst.
    constructor; [auto|]. apply Forall_app. split; auto.
Qed.

Section Loop.

Variable pop_max : list ScoredDoc -> option (ScoredDoc * list ScoredDoc).
Hypothesis Hpop : pop_max_spec pop_max.
Variable SimTable : Type.
Variable sim_default : SimTable.
Variable sim_contains : SimTable -> Z -> bool.
Variable sim_insert : SimTable -> Z -> SimTable.

Lemma pop_max_some (l : list ScoredDoc) (x : ScoredDoc) (r : list ScoredDoc) :
  pop_max l = Some (x, r) ->
  Permutation l (x :: r) /\ Forall (fun y => (adjusted_score y <= adjusted_score x)%Q) r.
Proof. apply Hpop. Qed.

Lemma pop_max_none (l : list ScoredDoc) : pop_max l = None -> l = [].
Proof. apply Hpop. Qed.

Lemma update_best_loop_docs (fuel : nat) (bc : BucketCount) (heap : list ScoredDoc) :
  Permutation (map doc heap) (map doc (update_best_loop pop_max fuel bc heap)).
Proof.
  revert heap. induction fuel as [|f IH]; intros heap; simpl; [reflexivity|].
  destruct (pop_max heap) as [[best rest]|] eqn:Ep; [|reflexivity].
  destruct (pop_max_some _ _ _ Ep) as [HP _].
  apply Permutation_map with (f := doc) in HP. simpl in HP.
  destruct (Qeq_bool _ _).
  - exact HP.
  - etransitivity; [exact HP|]. apply (IH (adjust_score bc best :: rest)).
Qed.

Lemma update_best_loop_bound (fuel : nat) (bc : BucketCount) (heap : list ScoredDoc) (b : Q) :
  Fresh bc heap -> Forall (fun y => (adjusted_score y <= b)%Q) heap ->
  Fresh bc (update_best_loop pop_max fuel bc heap) /\
  Forall (fun y => (adjusted_score y <= b)%Q) (update_best_loop pop_max fuel bc heap).
Proof.
  revert heap. induction fuel as [|f IH]; intros heap HF HB; simpl; [auto|].
  destruct (pop_max heap) as [[best rest]|] eqn:Ep; [|auto].
  destruct (pop_max_some _ _ _ Ep) as [HP _].
  apply (Forall_perm _ _ _ HP) in HF, HB.
  inversion_clear HF as [|? ? Hfb HFr]. inversion_clear HB as [|? ? Hbb HBr].
  assert (Hnew : Fresh bc (adjust_score bc best :: rest) /\
                 Forall (fun y => (adjusted_score y <= b)%Q) (adjust_score bc best :: rest)).
  { split; constructor; auto.
    - rewrite adjust_score_idem. apply Qle_refl.
    - eapply Qle_trans; eassumption. }
  destruct (Qeq_bool _ _); [exact Hnew|].
  apply IH; apply Hnew.
Qed.

Lemma update_best_doc_docs (bc : BucketCount) (heap : list ScoredDoc) :
  Permutation (map doc heap) (map doc (update_best_doc pop_max bc heap)).
Proof.
  unfold update_best_doc. destruct (Nat.leb _ _); [reflexivity|].
  apply update_best_loop_docs.
Qed.

Lemma update_best_doc_bound (bc : BucketCount) (heap : list ScoredDoc) (b : Q) :
  Fresh bc heap -> Forall (fun y => (adjusted_score y <= b)%Q) heap ->
  Fresh bc (update_best_doc pop_max bc heap) /\
  Forall (fun y => (adjusted_score y <= b)%Q) (update_best_doc pop_max bc heap).
Proof.
  unfold update_best_doc. destruct (Nat.leb _ _); [auto|].
  apply update_best_loop_bound.
Qed.

Lemma Fresh_update (bc : BucketCount) (best : ScoredDoc) (heap : list ScoredDoc) :
  Fresh bc heap -> Forall (fun y => (0 <= score (doc y))%Q) heap -> cfg_nonneg (config bc) ->
  Fresh (update_counts bc best) heap.
Proof.
  intros HF HS Hc. unfold Fresh in *.
  induction heap as [|y heap IH]; [constructor|].
  inversion_clear HF. inversion_clear HS. constructor; [|auto].
  eapply Qle_trans; [|eassumption].
  apply adjust_mono; auto using counts_le_update.
Qed.

Lemma AllLe_nil (res : list ScoredDoc) : AllLe [] res.
Proof. unfold AllLe. apply Forall_forall. intros. constructor. Qed.

Lemma AllLe_pop (heap heap1 res : list ScoredDoc) (best : ScoredDoc) :
  Permutation heap (best :: heap1) -> AllLe heap res ->
  Forall (fun x => desc x best) res /\ AllLe heap1 res.
Proof.
  intros HP HA. unfold AllLe in HA.
  assert (H : Forall (fun x => Forall (fun y => (adjusted_score y <= adjusted_score x)%Q)
                                     (best :: heap1)) res).
  { eapply Forall_impl; [exact HA|]. intros x Hx. eapply Forall_perm; eassumption. }
  split; (eapply Forall_impl; [exact H|]); intros x Hx; inversion Hx; auto.
Qed.

Lemma AllLe_snoc (heap res : list ScoredDoc) (best : ScoredDoc) :
  AllLe heap res -> Forall (fun y => (adjusted_score y <= adjusted_score best)%Q) heap ->
  AllLe heap (res ++ [best]).
Proof.
  intros HA Hb. unfold AllLe. apply Forall_app. split; [exact HA|].
  constructor; [exact Hb | constructor].
Qed.

Lemma sorted_loop_inv (fuel : nat) (de : bool) (top : nat) (bc : BucketCount)
    (heap res dups : list ScoredDoc) (tbl : SimTable) :
  (length heap <= fuel)%nat ->
  (de = true -> Fresh bc heap /\ Forall (fun y => (0 <= score (doc y))%Q) heap /\
                cfg_nonneg (config bc)) ->
  StronglySorted desc res -> AllLe heap res -> (length res < top)%nat ->
  Forall (fun x => simhash (hashes (doc x)) <> 0) dups ->
  let r := sorted_loop pop_max SimTable sim_contains sim_insert fuel de top bc heap res dups tbl in
  StronglySorted desc (fst r) /\ (length (fst r) <= top)%nat /\
  Forall (fun x => simhash (hashes (doc x)) <> 0) (snd r) /\
  (de = false -> snd r = dups /\
     exists rest, Permutation (res ++ heap) (fst r ++ rest) /\
       AllLe rest (fst r) /\ (length (fst r) = top \/ rest = [])).
Proof.
  revert bc heap res dups tbl.
  induction fuel as [|f IH]; intros bc heap res dups tbl Hlen Hde HS HA Hlt Hnz r.
  - assert (heap = []) by (destruct heap; simpl in Hlen; [reflexivity | lia]). subst heap.
    subst r. simpl. repeat split; auto; [lia|]. exists []. repeat split; auto using AllLe_nil.
  - subst r. simpl.
    destruct (pop_max heap) as [[best heap1]|] eqn:Ep.
    2:{ apply pop_max_none in Ep. subst heap. simpl.
        repeat split; auto; [lia|]. exists []. repeat split; auto using AllLe_nil. }
    destruct (pop_max_some _ _ _ Ep) as [HP Hmax].
    assert (Hlen1 : (length heap1 <= f)%nat)
      by (apply Permutation_length in HP; simpl in HP; lia).
    destruct (AllLe_pop _ _ _ _ HP HA) as [Hbest HA1].
    assert (Hde1 : de = true -> Fresh bc heap1 /\ Forall (fun y => (0 <= score (doc y))%Q) heap1 /\
                                cfg_nonneg (config bc)).
    { intros Hd. destruct (Hde Hd) as (HF & HSc & Hc).
      apply (Forall_perm _ _ _ HP) in HF, HSc. inversion HF. inversion HSc. auto. }
    assert (HSS : StronglySorted desc (res ++ [best])) by (apply StronglySorted_snoc; auto).
    assert (HA2 : AllLe heap1 (res ++ [best])) by (apply AllLe_snoc; auto).
    assert (Hlen2 : length (res ++ [best]) = S (length res))
      by (rewrite length_app; simpl; lia).
    assert (Hnondup : forall tbl',
      let r := (let '(bc0, heap0) :=
                  if de then let bc0 := update_counts bc best in
                              (bc0, update_best_doc pop_max bc0 heap1)
                  else (bc, heap1) in
                let res0 := res ++ [best] in
                if Nat.eqb (length res0) top then (res0, dups)
                else sorted_loop pop_max SimTable sim_contains sim_insert f de top bc0 heap0 res0 dups tbl') in
      StronglySorted desc (fst r) /\ (length (fst r) <= top)%nat /\
      Forall (fun x => simhash (hashes (doc x)) <> 0) (snd r) /\
      (de = false -> snd r = dups /\
         exists rest, Permutation (res ++ heap) (fst r ++ rest) /\
           AllLe rest (fst r) /\ (length (fst r) = top \/ rest = []))).
    { intros tbl' r. subst r.
      destruct de.
      - destruct (Hde1 eq_refl) as (HF1 & HSc1 & Hc1). cbv zeta.
        destruct (Nat.eqb_spec (length (res ++ [best])) top) as [Heq|Hne].
        + simpl. repeat split; auto; [lia | discriminate].
        + set (bc' := update_counts bc best).
          assert (HF1' : Fresh bc' heap1) by (apply Fresh_update; auto).
          pose proof (update_best_doc_docs bc' heap1) as Hdocs.
          edestruct (IH bc' (update_best_doc pop_max bc' heap1) (res ++ [best]) dups tbl')
            as (R1 & R2 & R3 & R4); [| | exact HSS | | lia | exact Hnz | ].
          * apply Permutation_length in Hdocs. rewrite !length_map in Hdocs. lia.
          * intros _. split; [|split].
            -- apply (update_best_doc_bound bc' heap1 (adjusted_score best) HF1' Hmax).
            -- apply (Forall_map_doc (fun d => (0 <= score d)%Q) _ _ Hdocs HSc1).
            -- exact Hc1.
          * unfold AllLe in HA2 |- *. eapply Forall_impl; [exact HA2|].
            intros x Hx. apply (update_best_doc_bound bc' heap1 _ HF1' Hx).
          * split; [exact R1|split; [exact R2|split; [exact R3|intros Hf; discriminate]]].
      - cbv zeta.
        destruct (Nat.eqb_spec (length (res ++ [best])) top) as [Heq|Hne].
        + simpl. repeat split; auto; [lia|]. exists heap1. repeat split; auto.
          rewrite <- app_assoc. simpl. apply Permutation_app_head. exact HP.
        + edestruct (IH bc heap1 (res ++ [best]) dups tbl')
            as (R1 & R2 & R3 & R4); [exact Hlen1 | discriminate | exact HSS | exact HA2 | lia
                                     | exact Hnz | ].
          split; [exact R1|split; [exact R2|split; [exact R3|]]].
          intros _. destruct (R4 eq_refl) as [Hd (rest & Hperm & Hle & Hor)].
          split; [exact Hd|]. exists rest. split; [|split; assumption].
          etransitivity; [|exact Hperm].
          rewrite <- app_assoc. simpl. apply Permutation_app_head. exact HP. }
    destruct (negb (simhash (hashes (doc best)) =? 0) && de) eqn:Ec.
    + apply andb_true_iff in Ec as [Ez Ed]. subst de.
      destruct (sim_contains tbl (simhash (hashes (doc best)))).
      * simpl.
        edestruct (IH bc heap1 res (dups ++ [best]) tbl)
          as (R1 & R2 & R3 & R4); [exact Hlen1 | exact Hde1 | exact HS | exact HA1 | exact Hlt | | ].
        { apply Forall_app. split; [exact Hnz|]. constructor; [|constructor].
          apply negb_true_iff, Z.eqb_neq in Ez. exact Ez. }
        split; [exact R1|split; [exact R2|split; [exact R3|intros Hf; discriminate]]].
      * apply (Hnondup (sim_insert tbl (simhash (hashes (doc best))))).
    + apply (Hnondup tbl).
Qed.

Lemma sorted_loop_length (fuel : nat) (de : bool) (top : nat) (bc : BucketCount)
    (heap res dups : list ScoredDoc) (tbl : SimTable) :
  (length res < top)%nat ->
  (length (fst (sorted_loop pop_max SimTable sim_contains sim_insert fuel de top bc heap res dups tbl))
   <= top)%nat.
Proof.
  revert bc heap res dups tbl.
  induction fuel as [|f IH]; intros bc heap res dups tbl Hlt; simpl; [lia|].
  destruct (pop_max heap) as [[best heap1]|]; [|simpl; lia].
  assert (Hlen2 : length (res ++ [best]) = S (length res))
    by (rewrite length_app; simpl; lia).
  destruct (negb (simhash (hashes (doc best)) =? 0) && de);
    [destruct (sim_contains tbl (simhash (hashes (doc best))))|]; simpl;
    [apply IH; exact Hlt| |];
    destruct de; simpl;
    (match goal with |- context [Nat.eqb ?a ?b] => destruct (Nat.eqb_spec a b) end);
    (simpl; lia) || (apply IH; lia).
Qed.

End Loop.

(** [pop_first_max] has the contract of [MinMaxHeap::pop_max]. *)
Lemma pop_first_max_spec : pop_max_spec pop_first_max.
Proof.
  split.
  - intros [|x t]; simpl; [reflexivity|].
    destruct (pop_first_max t) as [[m r]|]; [destruct (Qle_bool _ _)|]; discriminate.
  - induction l as [|x t IH]; intros y r Hp; simpl in Hp; [discriminate|].
    destruct (pop_first_max t) as [[m r']|] eqn:Et.
    + destruct (IH _ _ eq_refl) as [HP HF].
      destruct (Qle_bool (adjusted_score m) (adjusted_score x)) eqn:Eq;
        injection Hp as <- <-.
      * apply Qle_bool_iff in Eq. split; [reflexivity|].
        apply (Forall_perm _ _ _ (Permutation_sym HP)).
        constructor; [exact Eq|].
        eapply Forall_impl; [exact HF|]. intros z Hz. cbv beta in *. eapply Qle_trans; eassumption.
      * split.
        -- etransitivity; [apply perm_skip; exact HP|]. apply perm_swap.
        -- constructor; [|exact HF].
           apply Qlt_le_weak, Qnot_le_lt. intros Hle.
           apply Qle_bool_iff in Hle. congruence.
    + injection Hp as <- <-. split; [|constructor].
      destruct t as [|z t]; [reflexivity|].
      simpl in Et. destruct (pop_first_max t) as [[m r']|]; [destruct (Qle_bool _ _)|];
        discriminate.
Qed.

Lemma insert_all_spec (c : BucketCollector) (ds : list SegmentDoc) :
  count (insert_all c ds) = count c /\ top_n (insert_all c ds) = top_n c /\
  documents (insert_all c ds) =
    rev (map (fun d => adjust_score (count c) (scored_of d)) ds) ++ documents c.
Proof.
  unfold insert_all. revert c.
  induction ds as [|d ds IH]; intros c; simpl; [auto|].
  destruct (IH (insert c d)) as (H1 & H2 & H3). simpl in *.
  rewrite H1, H2, H3. rewrite <- app_assoc. auto.
Qed.

Lemma new_some (t : Target) (n : nat) (cfg : CollectorConfig) (c : BucketCollector) :
  new t n cfg = Some c ->
  (0 < n)%nat /\ c = mkBucketCollector (bucket_count_new cfg) [] n.
Proof.
  unfold new. destruct (Nat.eqb_spec n 0); [discriminate|].
  destruct (heap_ok t cfg); [|discriminate].
  intros H. injection H as <-. split; [lia | reflexivity].
Qed.

Lemma adjust_empty (cfg : CollectorConfig) (sd : ScoredDoc) :
  (adjusted_score (adjust_score (bucket_count_new cfg) sd) == score (doc sd))%Q.
Proof.
  rewrite adjust_score_denom. simpl.
  assert (Hd : (denom (bucket_count_new cfg) (doc sd) == 1)%Q).
  { unfold denom, taken. simpl. rewrite !lookup_empty. unfold qnat. simpl. ring. }
  rewrite Hd. field.
Qed.

Lemma StronglySorted_score (l : list ScoredDoc) :
  StronglySorted desc l ->
  Forall (fun x => (adjusted_score x == score (doc x))%Q) l ->
  StronglySorted (fun a b => (score b <= score a)%Q) (map doc l).
Proof.
  induction l as [|x l IH]; intros HS HQ; simpl; [constructor|].
  inversion HS as [|? ? HS' Hx]; subst. inversion HQ as [|? ? Hqx HQ']; subst.
  constructor; [auto|].
  apply Forall_map. apply Forall_forall. intros y Hy.
  pose proof (proj1 (Forall_forall _ _) Hx y Hy) as Hle.
  pose proof (proj1 (Forall_forall _ _) HQ' y Hy) as Hqy.
  unfold desc in Hle. rewrite <- Hqx, <- Hqy. exact Hle.
Qed.

End CollectorProofs.

Module CollectorClaims.
Import Collector CollectorProofs.

(** Claim C7: without [de_rank_similar], the collector built by
    [BucketCollector::new top_n config] and fed the documents [ds] returns
    the [min top_n |ds|] documents of highest raw score, in non-increasing
    raw-score order: together with the documents left out they are a
    permutation of [ds], and no document left out has a higher raw score
    than one returned.  Every returned document still carries its raw score
    as adjusted score (no bucket-count or simhash demotion). *)
Theorem into_sorted_vec_without_de_rank :
  forall (pop_max : list ScoredDoc -> option (ScoredDoc * list ScoredDoc))
         (Hpop : pop_max_spec pop_max)
         (SimTable : Type) (sim_default : SimTable)
         (sim_contains : SimTable -> Z -> bool) (sim_insert : SimTable -> Z -> SimTable)
         (t : Target) (n : nat) (cfg : CollectorConfig) (ds : list SegmentDoc)
         (c : BucketCollector),
    new t n cfg = Some c ->
    let c' := insert_all c ds in
    let out := into_sorted_vec pop_max SimTable sim_default sim_contains sim_insert c' false in
    (exists rest, Permutation ds (out ++ rest) /\
       Forall (fun y => Forall (fun x => (score y <= score x)%Q) out) rest) /\
    StronglySorted (fun a b => (score b <= score a)%Q) out /\
    length out = Nat.min n (length ds) /\
    Forall (fun x => (adjusted_score x == score (doc x))%Q)
      (into_sorted_vec_scored pop_max SimTable sim_default sim_contains sim_insert c' false).
Proof.
  intros pop_max Hpop SimTable sdef scont sins t n cfg ds c Hnew c' out.
  destruct (new_some _ _ _ _ Hnew) as [Hn ->].
  destruct (insert_all_spec (mkBucketCollector (bucket_count_new cfg) [] n) ds)
    as (Hc & Ht & Hd). simpl in Hc, Ht, Hd. rewrite app_nil_r in Hd.
  set (heap0 := rev (map (fun d => adjust_score (bucket_count_new cfg) (scored_of d)) ds)) in Hd.
  assert (Hscored : into_sorted_vec_scored pop_max SimTable sdef scont sins c' false =
    let '(res, dups) := sorted_loop pop_max SimTable scont sins (length heap0) false n
                          (bucket_count_new cfg) heap0 [] [] sdef in
    res ++ take (n - length res) dups).
  { unfold into_sorted_vec_scored. subst c'. rewrite Hc, Ht, Hd. reflexivity. }
  pose proof (sorted_loop_inv pop_max Hpop SimTable scont sins (length heap0) false n
                (bucket_count_new cfg) heap0 [] [] sdef (le_n _)
                ltac:(discriminate) (SSorted_nil _) ltac:(constructor) Hn ltac:(constructor))
    as (R1 & R2 & _ & R4).
  destruct (sorted_loop pop_max SimTable scont sins (length heap0) false n
              (bucket_count_new cfg) heap0 [] [] sdef) as [res dups] eqn:Eloop.
  simpl in R1, R2, R4.
  destruct (R4 eq_refl) as [-> (rest & Hperm & Hle & Hor)]. simpl in Hperm.
  assert (Hout_s : into_sorted_vec_scored pop_max SimTable sdef scont sins c' false = res).
  { rewrite Hscored. rewrite take_nil, app_nil_r. reflexivity. }
  assert (Hout : out = map doc res).
  { subst out. unfold into_sorted_vec. rewrite Hout_s. reflexivity. }
  assert (HQ0 : Forall (fun x => (adjusted_score x == score (doc x))%Q) heap0).
  { unfold heap0. apply Forall_forall. intros x Hx.
    rewrite list_elem_of_In, <- in_rev, in_map_iff in Hx. destruct Hx as (d & <- & _).
    exact (adjust_empty cfg (scored_of d)). }
  apply (Forall_perm _ _ _ Hperm), Forall_app in HQ0 as [HQr HQrest].
  assert (Hdocs : map doc heap0 = rev ds).
  { unfold heap0. rewrite map_rev, map_map. simpl. rewrite map_id. reflexivity. }
  rewrite Hout_s, Hout. split; [|split; [|split]].
  - exists (map doc rest). split.
    + rewrite <- map_app. rewrite <- Hperm.
      rewrite Hdocs. apply Permutation_rev.
    + apply Forall_map. apply Forall_forall. intros y Hy. apply Forall_map.
      apply Forall_forall. intros x Hx.
      pose proof (proj1 (Forall_forall _ _) Hle x Hx) as Hx'.
      pose proof (proj1 (Forall_forall _ _) Hx' y Hy) as Hyx.
      pose proof (proj1 (Forall_forall _ _) HQr x Hx) as Hqx.
      pose proof (proj1 (Forall_forall _ _) HQrest y Hy) as Hqy.
      simpl in *. rewrite <- Hqx, <- Hqy. exact Hyx.
  - apply StronglySorted_score; assumption.
  - apply Permutation_length in Hperm. rewrite length_app in Hperm.
    assert (length heap0 = length ds)
      by (unfold heap0; rewrite length_rev, length_map; reflexivity).
    rewrite length_map.
    destruct Hor as [Heq | ->]; simpl in Hperm; lia.
  - exact HQr.
Qed.


(** The documents of the concrete runs: all penalties are 1. *)
Definition cx_x : SegmentDoc := mkSegmentDoc (mkHashes 1 1111 11 111 5) 1 0 10.
Definition cx_z : SegmentDoc := mkSegmentDoc (mkHashes 2 2222 22 222 5) 2 0 9.
Definition cx_w : SegmentDoc := mkSegmentDoc (mkHashes 2 3333 33 333 0) 3 0 1.



(** The documents of the zero-key run: [y0] and [y1] have all four bucket
    keys 0, [v] has non-zero keys; no simhash anywhere. *)
Definition zk_y0 : SegmentDoc := mkSegmentDoc (mkHashes 0 0 0 0 0) 1 0 3.
Definition zk_y1 : SegmentDoc := mkSegmentDoc (mkHashes 0 0 0 0 0) 2 0 2.
Definition zk_v : SegmentDoc := mkSegmentDoc (mkHashes 7 7777 77 777 0) 3 0 (1 # 2).

(** Claim C4 (code run): with [de_rank_similar] set and all penalties 1,
    once [y0] is taken the key 0 holds 4 in the bucket map, so [y1] (raw
    score 2, keys all 0) is demoted to 2/17 and emitted after [v] (raw
    score 1/2, unrelated keys): the order is [y0, v, y1], not
    [y0, y1, v]. *)
Lemma zero_key_demotes :
  let out := run_scored (CollectorTests.collector_of 3 CollectorTests.cfg1
                           [zk_y0; zk_y1; zk_v]) true in
  map doc out = [zk_y0; zk_v; zk_y1] /\
  match out with
  | [_; _; y1] => Qeq_bool (adjusted_score y1) (2 # 17)
  | _ => false
  end = true.
Proof. vm_compute. split; reflexivity. Qed.

Definition wc0 : BucketCollector :=
  mkBucketCollector (bucket_count_new CollectorTests.cfg1) [] 2.

Lemma into_sorted_vec_without_de_rank_witness :
  new CollectorTests.tgt 2 CollectorTests.cfg1 = Some wc0 /\
  (let c' := insert_all wc0 [cx_x; cx_z; cx_w] in
   let out := into_sorted_vec pop_first_max (list Z) [] exact_table_contains
                exact_table_insert c' false in
   (exists rest, Permutation [cx_x; cx_z; cx_w] (out ++ rest) /\
      Forall (fun y => Forall (fun x => (score y <= score x)%Q) out) rest) /\
   StronglySorted (fun a b => (score b <= score a)%Q) out /\
   length out = Nat.min 2 (length [cx_x; cx_z; cx_w]) /\
   Forall (fun x => (adjusted_score x == score (doc x))%Q)
     (into_sorted_vec_scored pop_first_max (list Z) [] exact_table_contains
        exact_table_insert c' false)).
Proof.
  split; [reflexivity|].
  exact (into_sorted_vec_without_de_rank pop_first_max pop_first_max_spec (list Z) []
           exact_table_contains exact_table_insert CollectorTests.tgt 2 CollectorTests.cfg1
           [cx_x; cx_z; cx_w] wc0 eq_refl).
Defined.



End CollectorClaims.

Module SegmentsProofs.
Import Segments.

Example merge_into_two :
  let idx := [mkSegmentMeta 1 [1]; mkSegmentMeta 2 [2;3;4;5;6]; mkSegmentMeta 3 [7;8;9];
              mkSegmentMeta 4 [10;11]; mkSegmentMeta 5 [12;13;14;15]] in
  option_map (map (fun s => (seg_id s, seg_docs s))) (merge_into_max_segments 4 idx) =
  Some [(6, [1;2;3;4;5;6;10;11]); (7, [7;8;9;12;13;14;15])].
Proof. reflexivity. Qed.

Lemma insert_desc_perm (s : SegmentMeta) (l : list SegmentMeta) :
  Permutation (insert_desc s l) (s :: l).
Proof.
  induction l as [|y t IH]; simpl; [reflexivity|].
  destruct (Z.leb _ _); [|reflexivity].
  etransitivity; [apply perm_skip; exact IH|]. apply perm_swap.
Qed.

Lemma sort_desc_perm (l : list SegmentMeta) : Permutation (sort_desc l) l.
Proof.
  unfold sort_desc.
  assert (H : forall acc, Permutation (fold_left (fun acc s => insert_desc s acc) l acc) (l ++ acc)).
  { induction l as [|s l IH]; intros acc; simpl; [reflexivity|].
    rewrite IH. rewrite insert_desc_perm. apply Permutation_sym, Permutation_middle. }
  rewrite H, app_nil_r. reflexivity.
Qed.

Lemma first_min_from_lt (t : list SegmentMergeCandidate) (j best : nat) (v : Z) :
  (best < j)%nat -> (first_min_from t j best v < j + length t)%nat.
Proof.
  revert j best v. induction t as [|c t IH]; intros j best v Hb; simpl; [lia|].
  destruct (Z.ltb _ _).
  - specialize (IH (S j) j (cand_num_docs c)). lia.
  - specialize (IH (S j) best v). lia.
Qed.

Lemma first_min_lt (l : list SegmentMergeCandidate) :
  (0 < length l)%nat -> exists i, first_min l = Some i /\ (i < length l)%nat.
Proof.
  destruct l as [|c t]; simpl; [lia|]. intros _.
  eexists; split; [reflexivity|]. pose proof (first_min_from_lt t 1 0 (cand_num_docs c)). lia.
Qed.

Lemma assign_spec (ms : list SegmentMergeCandidate) (s : SegmentMeta) :
  (0 < length ms)%nat ->
  exists ms', assign ms s = Some ms' /\ length ms' = length ms /\
    Permutation (concat (map cand_segments ms')) (concat (map cand_segments ms) ++ [s]).
Proof.
  intros Hl. destruct (first_min_lt ms Hl) as (i & Hi & Hlt).
  unfold assign. rewrite Hi.
  destruct (lookup_lt_is_Some_2 ms i Hlt) as [best Hb]. rewrite Hb.
  eexists; split; [reflexivity|]. split; [apply length_insert|].
  rewrite (insert_take_drop ms i) by exact Hlt.
  transitivity (concat (map cand_segments (take i ms ++ best :: drop (S i) ms)) ++ [s]);
    [|rewrite (take_drop_middle ms i best Hb); reflexivity].
  rewrite !map_app, !concat_app. simpl.
  rewrite <- !app_assoc. apply Permutation_app_head.
  apply Permutation_app_head. apply Permutation_cons_append.
Qed.

Lemma assign_all_spec (segs : list SegmentMeta) (ms : list SegmentMergeCandidate) :
  (0 < length ms)%nat ->
  exists ms', assign_all ms segs = Some ms' /\ length ms' = length ms /\
    Permutation (concat (map cand_segments ms')) (concat (map cand_segments ms) ++ segs).
Proof.
  revert ms. induction segs as [|s segs IH]; intros ms Hl; simpl.
  - eexists; split; [reflexivity|]. rewrite app_nil_r. auto.
  - destruct (assign_spec ms s Hl) as (ms1 & -> & Hl1 & Hp1).
    destruct (IH ms1 ltac:(lia)) as (ms2 & -> & Hl2 & Hp2).
    eexists; split; [reflexivity|]. split; [lia|].
    rewrite Hp2, Hp1, <- app_assoc. reflexivity.
Qed.

Lemma concat_repeat_empty (k : nat) :
  concat (map cand_segments (repeat empty_candidate k)) = [].
Proof. induction k; simpl; auto. Qed.

Lemma concat_filter_nonempty (bs : list SegmentMergeCandidate) :
  concat (map cand_segments (List.filter (fun m => negb (bool_decide (cand_segments m = []))) bs)) =
  concat (map cand_segments bs).
Proof.
  induction bs as [|m bs IH]; simpl; [reflexivity|].
  destruct (bool_decide_reflect (cand_segments m = [])) as [E|E]; simpl; rewrite IH; [|reflexivity].
  rewrite E. reflexivity.
Qed.

Lemma filter_perm {A} (p : A -> bool) (l l' : list A) :
  Permutation l l' -> Permutation (List.filter p l) (List.filter p l').
Proof.
  induction 1; simpl; try reflexivity.
  - destruct (p x); auto.
  - destruct (p x), (p y); auto using perm_swap.
  - etransitivity; eassumption.
Qed.

Lemma filter_all_true {A} (p : A -> bool) (l : list A) :
  (forall x, In x l -> p x = true) -> List.filter p l = l.
Proof.
  induction l as [|a l IH]; intros H; simpl; [reflexivity|].
  rewrite (H a (or_introl eq_refl)). f_equal. apply IH. intros x Hx. apply H. right. exact Hx.
Qed.

Lemma filter_all_false {A} (p : A -> bool) (l : list A) :
  (forall x, In x l -> p x = false) -> List.filter p l = [].
Proof.
  induction l as [|a l IH]; intros H; simpl; [reflexivity|].
  rewrite (H a (or_introl eq_refl)). apply IH. intros x Hx. apply H. right. exact Hx.
Qed.

Lemma mem_id_In (ids : list Z) (s : SegmentMeta) :
  mem_id ids s = true <-> In (seg_id s) ids.
Proof.
  unfold mem_id. rewrite existsb_exists. split.
  - intros (x & Hx & E). apply Z.eqb_eq in E. subst. exact Hx.
  - intros H. exists (seg_id s). split; [exact H | apply Z.eqb_refl].
Qed.

Lemma NoDup_map_filter {A B} (f : A -> B) (p : A -> bool) (l : list A) :
  NoDup (map f l) -> NoDup (map f (List.filter p l)).
Proof.
  induction l as [|a l IH]; simpl; intros H; [constructor|].
  inversion H as [|? ? Hn Hd]; subst.
  destruct (p a); simpl; [|auto].
  constructor; [|auto].
  intros Hin. apply Hn. rewrite list_elem_of_In in Hin |- *. apply in_map_iff in Hin as (x & Hx & Hxin).
  apply filter_In in Hxin as [Hxin _]. rewrite <- Hx. apply in_map. exact Hxin.
Qed.

Lemma seg_id_le_max_id (idx : list SegmentMeta) (s : SegmentMeta) :
  In s idx -> seg_id s <= max_id idx.
Proof.
  unfold max_id. induction idx as [|a idx IH]; simpl; [contradiction|].
  intros [->|H]; [lia|]. specialize (IH H). lia.
Qed.

Lemma docs_tantivy_merge (ids : list Z) (idx : list SegmentMeta) :
  Permutation (concat (map seg_docs (tantivy_merge ids idx))) (concat (map seg_docs idx)).
Proof.
  unfold tantivy_merge. rewrite map_app, concat_app. simpl. rewrite app_nil_r.
  induction idx as [|s idx IH]; simpl; [reflexivity|].
  destruct (mem_id ids s); simpl.
  - rewrite <- IH, !app_assoc. apply Permutation_app_tail, Permutation_app_comm.
  - rewrite <- IH, app_assoc. reflexivity.
Qed.

(** One merge of a bucket [bs] whose segments are in the index. *)
Lemma tantivy_merge_step (bs R news current : list SegmentMeta) :
  Permutation current (bs ++ R ++ news) -> NoDup (map seg_id current) ->
  exists nw, Permutation (tantivy_merge (map seg_id bs) current) (R ++ news ++ [nw]) /\
             NoDup (map seg_id (tantivy_merge (map seg_id bs) current)).
Proof.
  intros HP HN.
  assert (HN' : NoDup (map seg_id (bs ++ R ++ news)))
    by (rewrite <- (Permutation_map seg_id HP); exact HN).
  rewrite map_app in HN'. apply NoDup_app in HN' as (_ & Hdisj & _).
  unfold tantivy_merge.
  eexists. split.
  - rewrite app_assoc. apply Permutation_app_tail.
    etransitivity; [apply filter_perm; exact HP|].
    rewrite List.filter_app.
    rewrite (filter_all_false _ bs).
    2:{ intros x Hx. apply negb_false_iff, mem_id_In, in_map. exact Hx. }
    rewrite (filter_all_true _ (R ++ news)).
    2:{ intros x Hx. apply negb_true_iff. destruct (mem_id _ x) eqn:E; [|reflexivity].
        apply mem_id_In in E. exfalso. apply (Hdisj (seg_id x)).
        - apply list_elem_of_In. exact E.
        - apply list_elem_of_In. apply in_map. exact Hx. }
    simpl. reflexivity.
  - rewrite map_app. simpl. apply NoDup_app. split; [|split].
    + apply NoDup_map_filter. exact HN.
    + intros x Hx. rewrite list_elem_of_In in Hx. apply in_map_iff in Hx as (s & <- & Hs).
      apply filter_In in Hs as [Hs _]. pose proof (seg_id_le_max_id _ _ Hs).
      rewrite list_elem_of_In. simpl. lia.
    + repeat constructor. intros H. inversion H.
Qed.

Lemma merge_fold (rem : list SegmentMergeCandidate) (current news : list SegmentMeta) :
  Permutation current (concat (map cand_segments rem) ++ news) ->
  NoDup (map seg_id current) ->
  length (fold_left (fun idx m => tantivy_merge (map seg_id (cand_segments m)) idx) rem current)
    = (length news + length rem)%nat /\
  Permutation
    (concat (map seg_docs
       (fold_left (fun idx m => tantivy_merge (map seg_id (cand_segments m)) idx) rem current)))
    (concat (map seg_docs current)).
Proof.
  revert current news. induction rem as [|m rem IH]; intros current news HP HN; simpl.
  - simpl in HP. apply Permutation_length in HP. split; [lia | reflexivity].
  - simpl in HP. rewrite <- app_assoc in HP.
    destruct (tantivy_merge_step _ _ _ _ HP HN) as (nw & HP' & HN').
    destruct (IH _ (news ++ [nw]) HP' HN') as [Hl Hd].
    split.
    + rewrite Hl, length_app. simpl. lia.
    + rewrite Hd. apply docs_tantivy_merge.
Qed.

(** Claim C5: for every [0 < max_n < 2^32] and every index whose segment
    ids are distinct (at most [u32::MAX] segments, the range of
    [SegmentOrdinal]), [merge_into_max_segments max_n] returns without
    panicking, leaves at most [max_n] segments and the same multiset of
    documents; when there are more than [max_n] segments it assigns them,
    sorted by descending [num_docs], greedily to the emptiest of
    [ceil(max_n/2)] candidates, and merges each non-empty candidate into
    one segment. *)
Theorem merge_into_max_segments_spec :
  forall (max_n : Z) (idx : list SegmentMeta),
    0 < max_n < 2 ^ 32 -> Z.of_nat (length idx) < 2 ^ 32 -> NoDup (map seg_id idx) ->
    exists idx', merge_into_max_segments max_n idx = Some idx' /\
      Z.of_nat (length idx') <= max_n /\
      Permutation (concat (map seg_docs idx')) (concat (map seg_docs idx)) /\
      (max_n < Z.of_nat (length idx) ->
       exists buckets,
         assign_all (repeat empty_candidate (Z.to_nat ((max_n + 1) / 2))) (sort_desc idx)
           = Some buckets /\
         length buckets = Z.to_nat ((max_n + 1) / 2) /\
         Permutation (concat (map cand_segments buckets)) idx /\
         idx' = merge_buckets buckets idx /\
         length idx' =
           length (List.filter (fun m => negb (bool_decide (cand_segments m = []))) buckets)).
Proof.
  intros max_n idx Hmax Hlen HN.
  unfold merge_into_max_segments.
  replace (negb (0 <? max_n)) with false by (symmetry; apply negb_false_iff, Z.ltb_lt; lia).
  destruct (Z.leb_spec (Z.of_nat (length idx)) max_n) as [Hle|Hgt].
  - exists idx. split; [reflexivity|]. split; [lia|]. split; [reflexivity|]. lia.
  - assert (Hmod : (max_n + 1) mod 2 ^ 32 = max_n + 1) by (apply Z.mod_small; lia).
    rewrite Hmod.
    set (k := Z.to_nat ((max_n + 1) / 2)).
    assert (Hk : (0 < k)%nat).
    { subst k. assert (1 <= (max_n + 1) / 2) by (apply Z.div_le_lower_bound; lia). lia. }
    assert (Hkmax : Z.of_nat k <= max_n).
    { subst k. assert ((max_n + 1) / 2 <= max_n) by (apply Z.div_le_upper_bound; lia).
      assert (0 <= (max_n + 1) / 2) by (apply Z.div_pos; lia). lia. }
    destruct (assign_all_spec (sort_desc idx) (repeat empty_candidate k))
      as (buckets & Hb & Hbl & Hbp); [rewrite repeat_length; exact Hk|].
    rewrite Hb. rewrite repeat_length in Hbl.
    rewrite concat_repeat_empty, sort_desc_perm in Hbp. simpl in Hbp.
    set (rem := List.filter (fun m => negb (bool_decide (cand_segments m = []))) buckets).
    destruct (merge_fold rem idx [])
      as [Hl Hd].
    { rewrite app_nil_r. subst rem. rewrite concat_filter_nonempty. symmetry. exact Hbp. }
    { exact HN. }
    exists (merge_buckets buckets idx). split; [reflexivity|].
    assert (Hrem : (length rem <= length buckets)%nat) by (subst rem; apply filter_length_le).
    unfold merge_buckets. fold rem. split; [|split; [exact Hd|]].
    + rewrite Hl. simpl. lia.
    + intros _. exists buckets. repeat split; auto.
Qed.

(** A witness of [merge_into_max_segments_spec]: five segments merged
    into at most four. *)
Lemma merge_into_max_segments_spec_witness :
  let idx := [mkSegmentMeta 1 [1]; mkSegmentMeta 2 [2;3;4;5;6]; mkSegmentMeta 3 [7;8;9];
              mkSegmentMeta 4 [10;11]; mkSegmentMeta 5 [12;13;14;15]] in
  (0 < 4 < 2 ^ 32 /\ Z.of_nat (length idx) < 2 ^ 32 /\ NoDup (map seg_id idx)) /\
  exists idx', merge_into_max_segments 4 idx = Some idx' /\
    Z.of_nat (length idx') <= 4 /\
    Permutation (concat (map seg_docs idx')) (concat (map seg_docs idx)) /\
    (4 < Z.of_nat (length idx) ->
     exists buckets,
       assign_all (repeat empty_candidate (Z.to_nat ((4 + 1) / 2))) (sort_desc idx)
         = Some buckets /\
       length buckets = Z.to_nat ((4 + 1) / 2) /\
       Permutation (concat (map cand_segments buckets)) idx /\
       idx' = merge_buckets buckets idx /\
       length idx' =
         length (List.filter (fun m => negb (bool_decide (cand_segments m = []))) buckets)).
Proof.
  intros idx.
  assert (H : 0 < 4 < 2 ^ 32 /\ Z.of_nat (length idx) < 2 ^ 32 /\ NoDup (map seg_id idx)).
  { split; [lia|]. split; [vm_compute; reflexivity|].
    apply (bool_decide_unpack _). vm_compute. reflexivity. }
  split; [exact H|].
  destruct H as (H1 & H2 & H3).
  exact (merge_into_max_segments_spec 4 idx H1 H2 H3).
Defined.

End SegmentsProofs.

Module RetrievalClaims.
Import Retrieval.

(** The filter as the spec words it: the image is suppressed when no query
    term appears in [title_terms] or [description_terms]. *)
Definition spec_filter_image (terms : list string) (doc : RetrievedWebpage) : RetrievedWebpage :=
  match primary_image doc with
  | Some image =>
      if negb (existsb (fun term =>
                 contains (title_terms image) (to_ascii_lowercase term)
                 || contains (description_terms image) (to_ascii_lowercase term)) terms)
      then mkRetrievedWebpage (url doc) (body doc) None (snippet doc)
      else doc
  | None => doc
  end.

(** The image of the spec's third example. *)
Definition example_image : StoredPrimaryImage :=
  mkStoredPrimaryImage ["title"]
    ["this"; "is"; "an"; "image"; "for"; "the"; "test"; "website"].

Definition example_page : RetrievedWebpage :=
  mkRetrievedWebpage "https://www.example.com" "body" (Some example_image) "".

Definition example_terms : list string := ["best"; "website"].

(** Claim C3 (counterexample): for the query "best website" the term
    "website" appears in the description terms, yet the code drops the
    image, since "best" appears in neither set; the reading where one
    matching term suffices keeps it. *)
Lemma image_dropped_with_one_matching_term :
  In "website"%string (description_terms example_image) /\
  primary_image (filter_image example_terms example_page) = None /\
  primary_image (spec_filter_image example_terms example_page) = Some example_image.
Proof. vm_compute. split; [tauto | split; reflexivity]. Qed.

Lemma contains_In (set : list string) (t : string) : contains set t = true <-> In t set.
Proof.
  unfold contains. rewrite existsb_exists. split.
  - intros (x & Hx & E). apply String.eqb_eq in E. subst. exact Hx.
  - intros H. exists t. split; [exact H | apply String.eqb_refl].
Qed.

Definition term_in (img : StoredPrimaryImage) (t : string) : Prop :=
  In (to_ascii_lowercase t) (title_terms img ++ description_terms img).

Lemma term_test_true (img : StoredPrimaryImage) (t : string) :
  (contains (title_terms img) (to_ascii_lowercase t)
   || contains (description_terms img) (to_ascii_lowercase t)) = true <-> term_in img t.
Proof.
  unfold term_in. rewrite orb_true_iff, !contains_In, in_app_iff. reflexivity.
Qed.

Lemma forallb_false_exists {A} (f : A -> bool) (l : list A) :
  forallb f l = false <-> exists x, In x l /\ f x = false.
Proof.
  induction l as [|a l IH]; simpl.
  - split; [discriminate | intros (x & [] & _)].
  - rewrite andb_false_iff, IH. split.
    + intros [H|(x & Hx & H)]; eauto.
    + intros (x & [<-|Hx] & H); eauto.
Qed.

Lemma filter_image_image (terms : list string) (d : RetrievedWebpage) (img : StoredPrimaryImage) :
  primary_image d = Some img ->
  (primary_image (filter_image terms d) = Some img <-> Forall (term_in img) terms) /\
  (primary_image (filter_image terms d) = None <->
     exists t, In t terms /\ ~ term_in img t).
Proof.
  intros Hd. unfold filter_image. rewrite Hd.
  destruct (forallb _ terms) eqn:E; simpl; rewrite ?Hd.
  - rewrite forallb_forall in E. split; split; try discriminate.
    + intros _. apply Forall_forall. intros t Ht. apply list_elem_of_In in Ht.
      apply term_test_true, E, Ht.
    + reflexivity.
    + intros (t & Ht & Hn). exfalso. apply Hn, term_test_true, E, Ht.
  - apply forallb_false_exists in E as (t & Ht & Hf). split; split; try discriminate.
    + intros HF. rewrite Forall_forall in HF.
      assert (Hin : term_in img t) by (apply HF, list_elem_of_In, Ht).
      apply term_test_true in Hin. congruence.
    + intros _. exists t. split; [exact Ht|]. intros Hin. apply term_test_true in Hin. congruence.
    + intros _. reflexivity.
Qed.

Lemma filter_image_fields (terms : list string) (d : RetrievedWebpage) :
  url (filter_image terms d) = url d /\ body (filter_image terms d) = body d /\
  (primary_image d = None -> primary_image (filter_image terms d) = None).
Proof.
  unfold filter_image. destruct (primary_image d) eqn:E; [|auto].
  destruct (negb _); simpl; auto. split; [reflexivity|split; [reflexivity|discriminate]].
Qed.

Definition page_of_doc (terms : list string) (d p : RetrievedWebpage) : Prop :=
  url p = url d /\ body p = body d /\
  match primary_image d with
  | None => primary_image p = None
  | Some img =>
      (primary_image p = Some img <-> Forall (term_in img) terms) /\
      (primary_image p = None <-> exists t, In t terms /\ ~ term_in img t)
  end.

Section WithStore.
Variable retrieve_doc : DocAddress -> option RetrievedWebpage.
Variable generate_snippet : RetrievedWebpage -> option string.

Lemma with_snippets_filtered (terms : list string) (l : list RetrievedWebpage) pages :
  with_snippets generate_snippet (map (filter_image terms) l) = Some pages ->
  Forall2 (page_of_doc terms) l pages.
Proof.
  revert pages. induction l as [|d l IH]; intros pages H; simpl in H.
  - injection H as <-. constructor.
  - destruct (generate_snippet _); [|discriminate].
    destruct (with_snippets _ _) eqn:E; [|discriminate].
    injection H as <-. constructor; [|apply IH; reflexivity].
    destruct (filter_image_fields terms d) as (Hu & Hb & Hn).
    unfold page_of_doc; simpl. split; [exact Hu|]. split; [exact Hb|].
    destruct (primary_image d) as [img|] eqn:Ei; [|apply Hn; reflexivity].
    apply filter_image_image. exact Ei.
Qed.

End WithStore.

(** Claim C3 (amended): whenever [retrieve_websites] succeeds, its pages are
    the documents that could be retrieved, in order, with url and body
    unchanged; a page whose document has no primary image has none, and a
    document's image [img] is kept exactly when EVERY query term, ASCII
    lowercased, is in [title_terms img] or [description_terms img], and is
    set to [None] exactly when SOME term is in neither. *)
Theorem retrieve_websites_image_filter :
  forall (retrieve_doc : DocAddress -> option RetrievedWebpage)
         (generate_snippet : RetrievedWebpage -> option string)
         (websites : list DocAddress) (terms : list string) (pages : list RetrievedWebpage),
    retrieve_websites retrieve_doc generate_snippet websites terms = Some pages ->
    Forall2 (page_of_doc terms) (omap retrieve_doc websites) pages.
Proof.
  intros retrieve_doc generate_snippet websites terms pages H.
  unfold retrieve_websites in H.
  exact (with_snippets_filtered generate_snippet terms _ pages H).
Qed.

Definition example_store (a : DocAddress) : option RetrievedWebpage :=
  if Z.eqb (segment a) 0 then Some example_page else None.

Definition example_snippet (p : RetrievedWebpage) : option string := Some "snippet"%string.

(** A witness of [retrieve_websites_image_filter] on the spec's third
    example: one retrievable document, one address that fails. *)
Lemma retrieve_websites_image_filter_witness :
  retrieve_websites example_store example_snippet
    [mkDocAddress 0 1; mkDocAddress 1 2] example_terms =
    Some [mkRetrievedWebpage "https://www.example.com" "body" None "snippet"] /\
  Forall2 (page_of_doc example_terms)
    (omap example_store [mkDocAddress 0 1; mkDocAddress 1 2])
    [mkRetrievedWebpage "https://www.example.com" "body" None "snippet"].
Proof.
  assert (H : retrieve_websites example_store example_snippet
    [mkDocAddress 0 1; mkDocAddress 1 2] example_terms =
    Some [mkRetrievedWebpage "https://www.example.com" "body" None "snippet"])
    by (vm_compute; reflexivity).
  split; [exact H|].
  exact (retrieve_websites_image_filter example_store example_snippet _ _ _ H).
Defined.

End RetrievalClaims.

Module IndexMergeClaims.
Import IndexMerge.

Definition self_dir0 : Dir :=
  <["1.store" := Data "self"]> (<["meta.json" := Meta [1]]> ∅).
Definition self_segments0 : list SegFiles := [mkSegFiles 1 ["1.store"] 5].

(** The other index holds a different segment under the same id, hence the
    same file name, and a second segment. *)
Definition other_dir0 : Dir :=
  <["1.store" := Data "other"]> (<["2.store" := Data "other"]>
    (<["meta.json" := Meta [1; 2]]> ∅)).
Definition other_segments0 : list SegFiles :=
  [mkSegFiles 1 ["1.store"] 3; mkSegFiles 2 ["2.store"] 9].

(** An other index whose segment 3 lists a file of the same name as a
    segment file of [self]. *)
Definition other_dir1 : Dir :=
  <["1.store" := Data "other"]> (<["meta.json" := Meta [3]]> ∅).
Definition other_segments1 : list SegFiles := [mkSegFiles 3 ["1.store"] 9].

(** Claim C8 (code bug): [merge] has no conflict check and no error result.
    When [self] and [other] both hold a segment file named [1.store], the
    merge goes on: it moves [2.store] in and rewrites [meta.json], so the
    target's files and [meta.json] change, and the other index's segment 1
    is dropped. When the clashing file belongs to a new segment, the rename
    replaces [self]'s file. *)
Theorem merge_no_conflict_abort :
  let '(sd, od) := merge self_dir0 self_segments0 other_dir0 other_segments0 in
  sd !! "1.store" = Some (Data "self") /\
  sd !! "2.store" = Some (Data "other") /\
  sd !! "meta.json" = Some (Meta [2; 1]) /\
  self_dir0 !! "2.store" = None /\
  self_dir0 !! "meta.json" = Some (Meta [1]) /\
  od = ∅ /\
  let '(sd1, _) := merge self_dir0 self_segments0 other_dir1 other_segments1 in
  sd1 !! "1.store" = Some (Data "other") /\
  sd1 !! "meta.json" = Some (Meta [3; 1]).
Proof. vm_compute. repeat split. Qed.

End IndexMergeClaims.

Module CollectorExtras.
Import Collector CollectorPipeline CollectorProofs.

Lemma perm_emit (res dups heap heap1 : list ScoredDoc) (best : ScoredDoc) :
  Permutation heap (best :: heap1) ->
  Permutation (res ++ dups ++ heap) ((res ++ [best]) ++ dups ++ heap1).
Proof.
  intros HP. rewrite <- app_assoc. apply Permutation_app_head. simpl.
  rewrite HP. symmetry. apply Permutation_middle.
Qed.

Lemma perm_dup (res dups heap heap1 : list ScoredDoc) (best : ScoredDoc) :
  Permutation heap (best :: heap1) ->
  Permutation (res ++ dups ++ heap) (res ++ (dups ++ [best]) ++ heap1).
Proof.
  intros HP. rewrite HP. apply Permutation_app_head. rewrite <- app_assoc. reflexivity.
Qed.

(** [BucketCollector::new] panics exactly on [top_n = 0] or a heap it
    cannot allocate. *)
Lemma new_none_iff (t : Target) (n : nat) (cfg : CollectorConfig) :
  new t n cfg = None <-> n = 0%nat \/ heap_ok t cfg = false.
Proof.
  unfold new. destruct (Nat.eqb_spec n 0) as [H0|H0]; destruct (heap_ok t cfg);
    split; intros H; try discriminate; try reflexivity; try (left; exact H0); try (right; reflexivity).
  destruct H as [H|H]; [contradiction | discriminate].
Qed.

(** A [usize] addition that does not overflow is the sum. *)
Lemma usize_add_nat_small (t : Target) (x y : nat) :
  (N.of_nat x + N.of_nat y < usize_modulus)%N -> usize_add_nat t x y = Some (x + y)%nat.
Proof.
  intros H. unfold usize_add_nat, usize_add. apply N.ltb_lt in H. rewrite H.
  simpl. f_equal. lia.
Qed.

(** A [usize] addition that does not panic gives the sum modulo [2^64]. *)
Lemma usize_add_nat_some (t : Target) (x y m : nat) :
  usize_add_nat t x y = Some m -> m = N.to_nat ((N.of_nat x + N.of_nat y) mod usize_modulus)%N.
Proof.
  unfold usize_add_nat, usize_add.
  destruct (N.ltb_spec (N.of_nat x + N.of_nat y) usize_modulus) as [Hlt|Hge].
  - intros Hs. injection Hs as <-. rewrite N.mod_small by exact Hlt. reflexivity.
  - destruct (overflow_checks t); [discriminate|]. intros Hs. injection Hs as <-. reflexivity.
Qed.

Section ExtraLoop.

Variable pop_max : list ScoredDoc -> option (ScoredDoc * list ScoredDoc).
Hypothesis Hpop : pop_max_spec pop_max.
Variable SimTable : Type.
Variable sim_default : SimTable.
Variable sim_contains : SimTable -> Z -> bool.
Variable sim_insert : SimTable -> Z -> SimTable.

(** The main loop of [into_sorted_vec] defers only documents of non-zero
    simhash, and none at all without [de_rank_similar]. *)
Lemma sorted_loop_dups (fuel : nat) (de : bool) (top : nat) (bc : BucketCount)
    (heap res dups : list ScoredDoc) (tbl : SimTable) :
  Forall (fun x => simhash (hashes (doc x)) <> 0) dups ->
  let r := sorted_loop pop_max SimTable sim_contains sim_insert fuel de top bc heap res dups tbl in
  Forall (fun x => simhash (hashes (doc x)) <> 0) (snd r) /\ (de = false -> snd r = dups).
Proof.
  revert bc heap res dups tbl.
  induction fuel as [|f IH]; intros bc heap res dups tbl Hnz r; subst r; simpl; [auto|].
  destruct (pop_max heap) as [[best heap1]|]; [|simpl; auto].
  destruct (negb (simhash (hashes (doc best)) =? 0) && de) eqn:Ec;
    [destruct (sim_contains tbl (simhash (hashes (doc best))))|]; simpl.
  1:{ apply andb_true_iff in Ec as [Ez Ed]. subst de.
      destruct (IH bc heap1 res (dups ++ [best]) tbl) as [H1 _].
      { apply Forall_app. split; [exact Hnz|]. constructor; [|constructor].
        apply negb_true_iff, Z.eqb_neq in Ez. exact Ez. }
      split; [exact H1 | discriminate]. }
  all: destruct de; simpl; destruct (Nat.eqb (length (res ++ [best])) top); simpl;
    [auto | apply IH; exact Hnz | auto | apply IH; exact Hnz].
Qed.

(** The main loop of [into_sorted_vec] loses no document and invents
    none: what it emits, what it defers and what is left on the heap are
    the documents it started with; it leaves some on the heap only once
    [top_n] documents have been emitted. *)
Lemma sorted_loop_docs (fuel : nat) (de : bool) (top : nat) (bc : BucketCount)
    (heap res dups : list ScoredDoc) (tbl : SimTable) :
  (length heap <= fuel)%nat -> (length res < top)%nat ->
  let r := sorted_loop pop_max SimTable sim_contains sim_insert fuel de top bc heap res dups tbl in
  exists rest, Permutation (map doc (res ++ dups ++ heap)) (map doc (fst r ++ snd r ++ rest)) /\
    (length (fst r) = top \/ rest = []).
Proof.
  revert bc heap res dups tbl.
  induction fuel as [|f IH]; intros bc heap res dups tbl Hlen Hlt r; subst r.
  - assert (heap = []) by (destruct heap; simpl in Hlen; [reflexivity | lia]). subst heap.
    simpl. exists []. split; [reflexivity | right; reflexivity].
  - simpl. destruct (pop_max heap) as [[best heap1]|] eqn:Ep.
    2:{ apply (pop_max_none pop_max Hpop) in Ep. subst heap. simpl.
        exists []. split; [reflexivity | right; reflexivity]. }
    destruct (pop_max_some pop_max Hpop _ _ _ Ep) as [HP _].
    assert (Hlen1 : (length heap1 <= f)%nat)
      by (apply Permutation_length in HP; simpl in HP; lia).
    assert (Hlen2 : length (res ++ [best]) = S (length res))
      by (rewrite length_app; simpl; lia).
    destruct (negb (simhash (hashes (doc best)) =? 0) && de) eqn:Ec;
      [destruct (sim_contains tbl (simhash (hashes (doc best))))|]; simpl.
    1:{ destruct (IH bc heap1 res (dups ++ [best]) tbl Hlen1 Hlt) as (rest & Hp & Ho).
        exists rest. split; [|exact Ho]. rewrite <- Hp. apply Permutation_map, perm_dup, HP. }
    all: destruct de; simpl;
      destruct (Nat.eqb_spec (length (res ++ [best])) top) as [Heq|Hne]; simpl;
      [ exists heap1; split; [apply Permutation_map, perm_emit, HP | left; exact Heq]
      | pose proof (update_best_doc_docs pop_max Hpop
                      (update_counts bc best) heap1) as Hd;
        match goal with |- context [sorted_loop _ _ _ _ _ _ _ _ _ _ _ ?t] =>
          destruct (IH (update_counts bc best)
                      (update_best_doc pop_max (update_counts bc best) heap1)
                      (res ++ [best]) dups t) as (rest & Hp & Ho) end;
        [ apply Permutation_length in Hd; rewrite !length_map in Hd; lia | lia | ];
        exists rest; split; [|exact Ho]; rewrite <- Hp;
        rewrite (Permutation_map doc (perm_emit res dups heap heap1 best HP));
        rewrite !map_app; apply Permutation_app_head, Permutation_app_head; exact Hd
      | exists heap1; split; [apply Permutation_map, perm_emit, HP | left; exact Heq]
      | match goal with |- context [sorted_loop _ _ _ _ _ _ _ _ _ _ _ ?t] =>
          destruct (IH bc heap1 (res ++ [best]) dups t) as (rest & Hp & Ho) end; [lia | lia | ];
        exists rest; split; [|exact Ho]; rewrite <- Hp;
        apply Permutation_map, perm_emit, HP ].
Qed.


(** [into_sorted_vec] on a collector with [top_n > 0]: it returns
    [min top_n |heap|] of the heap's documents, each at most once. *)
Lemma into_sorted_vec_docs_core (c : BucketCollector) (de : bool) :
  (0 < top_n c)%nat ->
  let out := into_sorted_vec_scored pop_max SimTable sim_default sim_contains sim_insert c de in
  length out = Nat.min (top_n c) (length (documents c)) /\
  exists rest, Permutation (map doc (documents c)) (map doc out ++ rest).
Proof.
  intros Htop out. subst out. unfold into_sorted_vec_scored.
  pose proof (sorted_loop_docs (length (documents c)) de (top_n c) (count c)
                (documents c) [] [] sim_default (le_n _) Htop) as (rest & Hp & Ho).
  pose proof (sorted_loop_length pop_max SimTable sim_contains sim_insert
                (length (documents c)) de (top_n c) (count c)
                (documents c) [] [] sim_default Htop) as Hl.
  destruct (sorted_loop pop_max SimTable sim_contains sim_insert (length (documents c)) de
              (top_n c) (count c) (documents c) [] [] sim_default) as [res dups].
  simpl in Hp, Ho, Hl.
  assert (HN := Permutation_length Hp). rewrite !length_map, !length_app in HN.
  split.
  - rewrite length_app, length_take. destruct Ho as [Ho | ->]; simpl in HN; lia.
  - exists (map doc (drop (top_n c - length res) dups ++ rest)). rewrite Hp.
    rewrite <- map_app, <- !app_assoc. rewrite (app_assoc (take _ dups)), take_drop.
    reflexivity.
Qed.

Lemma new_insert_all_docs (t : Target) (n : nat) (cfg : CollectorConfig) (c : BucketCollector)
    (ds : list SegmentDoc) :
  new t n cfg = Some c ->
  (0 < n)%nat /\ top_n (insert_all c ds) = n /\ map doc (documents (insert_all c ds)) = rev ds.
Proof.
  intros Hnew. destruct (new_some _ _ _ _ Hnew) as [Hn ->].
  destruct (insert_all_spec (mkBucketCollector (bucket_count_new cfg) [] n) ds)
    as (_ & Ht & Hd). simpl in Ht, Hd. rewrite app_nil_r in Hd.
  split; [exact Hn|]. split; [exact Ht|]. rewrite Hd, map_rev, map_map. simpl.
  rewrite map_id. reflexivity.
Qed.

(** The collector built by [new t n cfg] and fed [ds] returns
    [min n |ds|] of them, each at most once. *)
Lemma collector_docs_core (t : Target) (n : nat) (cfg : CollectorConfig) (ds : list SegmentDoc)
    (c : BucketCollector) (de : bool) :
  new t n cfg = Some c ->
  let out := into_sorted_vec pop_max SimTable sim_default sim_contains sim_insert
               (insert_all c ds) de in
  length out = Nat.min n (length ds) /\ exists rest, Permutation ds (out ++ rest).
Proof.
  intros Hnew out. destruct (new_insert_all_docs t n cfg c ds Hnew) as (Hn & Ht & Hd).
  destruct (into_sorted_vec_docs_core (insert_all c ds) de ltac:(lia)) as [Hl (rest & Hp)].
  rewrite Hd in Hp. rewrite Ht in Hl.
  assert (Hlen : length (documents (insert_all c ds)) = length ds).
  { rewrite <- (length_map doc), Hd, length_rev. reflexivity. }
  subst out. unfold into_sorted_vec. split.
  - rewrite length_map, Hl, Hlen. reflexivity.
  - exists rest. rewrite <- Hp. apply Permutation_rev.
Qed.


End ExtraLoop.

End CollectorExtras.

Module CollectorExtraClaims.
Import Collector CollectorPipeline CollectorProofs CollectorExtras.


Definition seg_doc_of (read_hashes : Z -> Hashes) (segment_score : Z -> Q -> Q) (o : Z)
    (x : Z * Q) : SegmentDoc :=
  mkSegmentDoc (read_hashes (fst x)) (fst x) o (segment_score (fst x) (snd x)).

Lemma tweaked_collect_eq (read_hashes : Z -> Hashes) (segment_score : Z -> Q -> Q)
    (sc : TopSegmentCollector) (d : Z) (s : Q) :
  tweaked_collect read_hashes segment_score sc d s =
  if is_done sc then sc
  else mkTopSegmentCollector (max_docs sc) (S (num_docs_taken sc)) (segment_ord sc)
         (insert (bucket_collector sc) (mkSegmentDoc (read_hashes d) d (segment_ord sc)
                                          (segment_score d s))).
Proof. unfold tweaked_collect, collect. destruct (is_done sc); reflexivity. Qed.

Lemma tweaked_collect_all_gen (read_hashes : Z -> Hashes) (segment_score : Z -> Q -> Q)
    (xs : list (Z * Q)) (sc : TopSegmentCollector) :
  let room := match max_docs sc with Some m => (m - num_docs_taken sc)%nat | None => length xs end in
  let sc' := tweaked_collect_all read_hashes segment_score sc xs in
  max_docs sc' = max_docs sc /\ segment_ord sc' = segment_ord sc /\
  num_docs_taken sc' = (num_docs_taken sc + Nat.min room (length xs))%nat /\
  bucket_collector sc' =
    insert_all (bucket_collector sc)
      (map (seg_doc_of read_hashes segment_score (segment_ord sc)) (take room xs)).
Proof.
  revert sc. induction xs as [|x xs IH]; intros sc room sc'; subst room sc'.
  - simpl. rewrite take_nil. destruct (max_docs sc); simpl; repeat split; lia.
  - change (tweaked_collect_all read_hashes segment_score sc (x :: xs)) with
      (tweaked_collect_all read_hashes segment_score
         (tweaked_collect read_hashes segment_score sc (fst x) (snd x)) xs).
    rewrite tweaked_collect_eq.
    destruct (is_done sc) eqn:Ed; unfold is_done in Ed;
      destruct (max_docs sc) as [m|] eqn:Em; try discriminate.
    + apply Nat.leb_le in Ed.
      destruct (IH sc) as (H1 & H2 & H3 & H4). rewrite Em in H3, H4.
      replace (m - num_docs_taken sc)%nat with 0%nat in * by lia.
      simpl in *. rewrite H1, Em. repeat split; auto.
    + apply Nat.leb_gt in Ed.
      match goal with |- context [tweaked_collect_all _ _ ?s1 xs] =>
        destruct (IH s1) as (H1 & H2 & H3 & H4) end.
      simpl in H1, H2, H3, H4.
      replace (m - num_docs_taken sc)%nat with (S (m - S (num_docs_taken sc))) by lia.
      split; [exact H1|]. split; [exact H2|]. split; [rewrite H3; simpl; lia|].
      rewrite H4. reflexivity.
    + match goal with |- context [tweaked_collect_all _ _ ?s1 xs] =>
        destruct (IH s1) as (H1 & H2 & H3 & H4) end.
      simpl in H1, H2, H3, H4.
      split; [exact H1|]. split; [exact H2|]. split; [rewrite H3; simpl; lia|].
      rewrite H4. reflexivity.
Qed.

(** Extra: for every [top_n > 0] and both values of [de_rank_similar],
    [BucketCollector::into_sorted_vec] returns exactly [min top_n n] of the
    [n] inserted documents, none twice and none that was not inserted. *)
Theorem into_sorted_vec_min_top_n_docs :
  forall (pop_max : list ScoredDoc -> option (ScoredDoc * list ScoredDoc))
         (Hpop : pop_max_spec pop_max)
         (SimTable : Type) (sim_default : SimTable)
         (sim_contains : SimTable -> Z -> bool) (sim_insert : SimTable -> Z -> SimTable)
         (t : Target) (n : nat) (cfg : CollectorConfig) (ds : list SegmentDoc)
         (c : BucketCollector) (de : bool),
    new t n cfg = Some c ->
    let out := into_sorted_vec pop_max SimTable sim_default sim_contains sim_insert
                 (insert_all c ds) de in
    length out = Nat.min n (length ds) /\ exists rest, Permutation ds (out ++ rest).
Proof.
  intros pop_max Hpop SimTable sd scont sins t n cfg ds c de Hnew.
  exact (collector_docs_core pop_max Hpop SimTable sd scont sins t n cfg ds c de Hnew).
Qed.

(** Extra: when at most [top_n] documents are inserted, [into_sorted_vec]
    returns all of them (in some order), also with [de_rank_similar]:
    its main loop splits them into [res], the documents it emits, and
    [simhash_dups], the near-duplicates it defers (all of non-zero simhash,
    none without [de_rank_similar]); the result is [res] followed by all of
    [simhash_dups], so near-duplicates are moved to the end, never dropped. *)
Theorem into_sorted_vec_keeps_all_below_top_n :
  forall (pop_max : list ScoredDoc -> option (ScoredDoc * list ScoredDoc))
         (Hpop : pop_max_spec pop_max)
         (SimTable : Type) (sim_default : SimTable)
         (sim_contains : SimTable -> Z -> bool) (sim_insert : SimTable -> Z -> SimTable)
         (t : Target) (n : nat) (cfg : CollectorConfig) (ds : list SegmentDoc)
         (c : BucketCollector) (de : bool),
    new t n cfg = Some c -> (length ds <= n)%nat ->
    let c' := insert_all c ds in
    let out := into_sorted_vec pop_max SimTable sim_default sim_contains sim_insert c' de in
    Permutation ds out /\
    let '(res, simhash_dups) :=
      sorted_loop pop_max SimTable sim_contains sim_insert (length (documents c')) de
        (top_n c') (count c') (documents c') [] [] sim_default in
    out = map doc (res ++ simhash_dups) /\
    Forall (fun x => simhash (hashes (doc x)) <> 0) simhash_dups /\
    (de = false -> simhash_dups = []).
Proof.
  intros pop_max Hpop SimTable sd scont sins t n cfg ds c de Hnew Hle c' out.
  subst c' out. split.
  - destruct (collector_docs_core pop_max Hpop SimTable sd scont sins t n cfg ds c de Hnew)
      as [Hl (rest & Hp)].
    assert (HN := Permutation_length Hp). rewrite length_app, Hl in HN.
    destruct rest; [|simpl in HN; lia].
    rewrite app_nil_r in Hp. exact Hp.
  - destruct (new_insert_all_docs t n cfg c ds Hnew) as (Hn & Ht & Hd).
    pose proof (sorted_loop_docs pop_max Hpop SimTable scont sins
                  (length (documents (insert_all c ds))) de (top_n (insert_all c ds))
                  (count (insert_all c ds)) (documents (insert_all c ds)) [] [] sd
                  (le_n _) ltac:(rewrite Ht; simpl; lia)) as (rest & Hp & _).
    pose proof (sorted_loop_dups pop_max SimTable scont sins
                  (length (documents (insert_all c ds))) de (top_n (insert_all c ds))
                  (count (insert_all c ds)) (documents (insert_all c ds)) [] [] sd
                  (List.Forall_nil _)) as [Hnz Hde].
    assert (Hlen : length (documents (insert_all c ds)) = length ds).
    { rewrite <- (length_map doc), Hd, length_rev. reflexivity. }
    unfold into_sorted_vec, into_sorted_vec_scored.
    destruct (sorted_loop pop_max SimTable scont sins (length (documents (insert_all c ds))) de
                (top_n (insert_all c ds)) (count (insert_all c ds)) (documents (insert_all c ds))
                [] [] sd) as [res dups].
    simpl in Hp, Hnz, Hde.
    apply Permutation_length in Hp. rewrite !length_map, !length_app in Hp. simpl in Hp.
    rewrite Ht, (take_ge dups) by lia.
    split; [reflexivity | split; [exact Hnz | exact Hde]].
Qed.

(** Extra: when [top_n + offset] does not overflow a [usize],
    [TweakedScoreTopCollector::merge_fruits] panics exactly when
    [top_n + offset = 0] or [BucketCollector::new] cannot allocate its heap;
    otherwise, over the [N] documents of all segment fruits, it returns
    [min top_n (N - offset)] pointers, made from distinct input documents. *)
Theorem merge_fruits_page_size :
  forall (pop_max : list ScoredDoc -> option (ScoredDoc * list ScoredDoc))
         (Hpop : pop_max_spec pop_max)
         (SimTable : Type) (sim_default : SimTable)
         (sim_contains : SimTable -> Z -> bool) (sim_insert : SimTable -> Z -> SimTable)
         (t : Target) (td : TopDocs) (fruits : list (list SegmentDoc)),
    (N.of_nat (td_top_n td) + N.of_nat (td_offset td) < usize_modulus)%N ->
    (merge_fruits pop_max SimTable sim_default sim_contains sim_insert t td fruits = None <->
       (td_top_n td + td_offset td = 0)%nat \/ heap_ok t (td_collector_config td) = false) /\
    forall ps, merge_fruits pop_max SimTable sim_default sim_contains sim_insert t td fruits = Some ps ->
      length ps = Nat.min (td_top_n td) (length (concat fruits) - td_offset td) /\
      exists ds rest, ps = map to_pointer ds /\ Permutation (concat fruits) (ds ++ rest).
Proof.
  intros pop_max Hpop SimTable sd scont sins t td fruits Hsm.
  unfold merge_fruits. rewrite (usize_add_nat_small t _ _ Hsm).
  destruct (new t (td_top_n td + td_offset td) (td_collector_config td)) as [c|] eqn:Hnew.
  2:{ split; [|discriminate]. split; [|reflexivity]. intros _.
      apply new_none_iff. exact Hnew. }
  split.
  { split; [discriminate|]. intros H. apply new_none_iff in H. rewrite Hnew in H. discriminate. }
  intros ps Hps. injection Hps as <-.
  destruct (collector_docs_core pop_max Hpop SimTable sd scont sins t _ _ (concat fruits) c
              (td_de_rank_similar td) Hnew) as [Hl (rest & Hp)].
  set (docs := into_sorted_vec pop_max SimTable sd scont sins (insert_all c (concat fruits))
                 (td_de_rank_similar td)) in *.
  split.
  - rewrite length_map, length_take, length_drop, Hl. lia.
  - exists (take (td_top_n td) (drop (td_offset td) docs)).
    exists (take (td_offset td) docs ++ drop (td_top_n td) (drop (td_offset td) docs) ++ rest).
    split; [reflexivity|]. rewrite Hp.
    rewrite <- (take_drop (td_offset td) docs) at 1.
    rewrite <- (take_drop (td_top_n td) (drop (td_offset td) docs)) at 1.
    rewrite <- !app_assoc. rewrite !app_assoc. apply Permutation_app_tail.
    rewrite <- !app_assoc. rewrite (app_assoc (take (td_offset td) docs)).
    rewrite (app_assoc (take (td_top_n td) _)). apply Permutation_app_tail.
    apply Permutation_app_comm.
Qed.


(** Extra: a segment collector made by [TopDocs::for_segment] inserts into
    its bucket collector exactly the first [k] documents tantivy feeds it,
    each with the segment's tweaked score, where [k] is
    [total_docs / segments] of [max_docs] (all documents without
    [max_docs]); the rest are ignored.  Its harvest then returns
    [min s (min k n)] of those [k] documents, each at most once, where [s]
    is the [usize] sum [top_n + offset], that is, taken modulo [2^64]
    (a release build wraps; a debug build panics in [for_segment]). *)
Theorem segment_collector_first_docs :
  forall (read_hashes : Z -> Hashes) (segment_score : Z -> Q -> Q)
         (t : Target) (td : TopDocs) (o : Z) (sc : TopSegmentCollector) (xs : list (Z * Q)),
    for_segment t td o = Some sc ->
    let k := match td_max_docs td with
             | Some m => Nat.div (total_docs m) (segments m)
             | None => length xs
             end in
    let s := N.to_nat ((N.of_nat (td_top_n td) + N.of_nat (td_offset td)) mod usize_modulus)%N in
    let sc' := tweaked_collect_all read_hashes segment_score sc xs in
    let taken_docs := map (seg_doc_of read_hashes segment_score o) (take k xs) in
    num_docs_taken sc' = Nat.min k (length xs) /\
    bucket_collector sc' = insert_all (bucket_collector sc) taken_docs /\
    forall (pop_max : list ScoredDoc -> option (ScoredDoc * list ScoredDoc))
           (Hpop : pop_max_spec pop_max)
           (SimTable : Type) (sim_default : SimTable)
           (sim_contains : SimTable -> Z -> bool) (sim_insert : SimTable -> Z -> SimTable),
      let out := harvest pop_max SimTable sim_default sim_contains sim_insert sc' in
      length out = Nat.min s (Nat.min k (length xs)) /\
      exists rest, Permutation taken_docs (out ++ rest).
Proof.
  intros read_hashes segment_score t td o sc xs Hfs k s sc' taken_docs.
  unfold for_segment in Hfs.
  assert (Hsc : exists m bc, usize_add_nat t (td_top_n td) (td_offset td) = Some m /\
            new t m (td_collector_config td) = Some bc /\
            sc = mkTopSegmentCollector
                   (match td_max_docs td with
                    | Some m => Some (Nat.div (total_docs m) (segments m))
                    | None => None end) 0 o bc).
  { destruct (td_max_docs td) as [m|].
    - destruct (Nat.eqb (segments m) 0); [discriminate|].
      destruct (usize_add_nat _ _ _) as [n|] eqn:Ea; [|discriminate].
      destruct (new _ _ _) as [bc|] eqn:Eb; [|discriminate]. injection Hfs as <-.
      exists n, bc. auto.
    - destruct (usize_add_nat _ _ _) as [n|] eqn:Ea; [|discriminate].
      destruct (new _ _ _) as [bc|] eqn:Eb; [|discriminate]. injection Hfs as <-.
      exists n, bc. auto. }
  destruct Hsc as (m & bc & Hadd & Hnew & ->). subst sc' taken_docs.
  apply usize_add_nat_some in Hadd. subst m.
  destruct (tweaked_collect_all_gen read_hashes segment_score xs
              (mkTopSegmentCollector
                 (match td_max_docs td with
                  | Some m => Some (Nat.div (total_docs m) (segments m))
                  | None => None end) 0 o bc)) as (_ & _ & H3 & H4).
  simpl in H3, H4.
  assert (Hroom : match match td_max_docs td with
                        | Some m => Some (Nat.div (total_docs m) (segments m))
                        | None => None end with
                  | Some m => (m - 0)%nat
                  | None => length xs end = k).
  { subst k. destruct (td_max_docs td); lia. }
  rewrite Hroom in H3, H4.
  split; [exact H3|]. split; [exact H4|].
  intros pop_max Hpop SimTable sd scont sins out.
  subst out. unfold harvest. rewrite H4.
  destruct (collector_docs_core pop_max Hpop SimTable sd scont sins t _ _
              (map (seg_doc_of read_hashes segment_score o) (take k xs)) bc true Hnew)
    as [Hl Hp].
  split; [|exact Hp].
  rewrite Hl, length_map, length_take. reflexivity.
Qed.

(** Extra: with non-negative penalties and a non-negative raw score,
    [BucketCount::adjust_score] gives a score between 0 and the raw score,
    and counts that are at least as high (same config) never give a higher
    adjusted score. *)
Theorem adjust_score_bounded_monotone :
  forall (bc bc' : BucketCount) (sd : ScoredDoc),
    cfg_nonneg (config bc) -> (0 <= score (doc sd))%Q ->
    (0 <= adjusted_score (adjust_score bc sd) <= score (doc sd))%Q /\
    (config bc' = config bc -> counts_le bc bc' ->
     adjusted_score (adjust_score bc' sd) <= adjusted_score (adjust_score bc sd))%Q.
Proof.
  intros bc bc' sd Hc Hs.
  split.
  - rewrite adjust_score_denom. simpl.
    pose proof (denom_ge_1 bc (doc sd) Hc) as Hd.
    assert (H0 : (0 <= 1 / denom bc (doc sd))%Q).
    { apply Qle_shift_div_l; [lra | lra]. }
    assert (H1 : (1 / denom bc (doc sd) <= 1)%Q).
    { apply Qle_shift_div_r; [lra | lra]. }
    split.
    + apply Qmult_le_0_compat; assumption.
    + rewrite <- (Qmult_1_r (score (doc sd))) at 2.
      apply Qmult_le_compat_nonneg; split; try assumption; apply Qle_refl.
  - intros Hcfg Hle. apply adjust_mono; auto.
Qed.

Definition ex_tgt : Target := mkTarget true 1000000.
Definition ex_cfg : CollectorConfig := mkCollectorConfig 1 1 1 1 100.
Definition ex_d1 : SegmentDoc := mkSegmentDoc (mkHashes 1 11 111 1111 7) 1 0 5.
Definition ex_d2 : SegmentDoc := mkSegmentDoc (mkHashes 1 12 112 1112 7) 2 0 4.
Definition ex_d3 : SegmentDoc := mkSegmentDoc (mkHashes 2 21 221 2221 0) 3 1 3.
Definition ex_bc (n : nat) : BucketCollector := mkBucketCollector (bucket_count_new ex_cfg) [] n.
Definition ex_td : TopDocs := mkTopDocs 1 1 None false ex_cfg.
Definition ex_td_max : TopDocs := mkTopDocs 1 1 (Some (mkMaxDocsConsidered 4 2)) true ex_cfg.
Definition ex_read (d : Z) : Hashes := mkHashes d d d d 0.
Definition ex_tweak (d : Z) (s : Q) : Q := s.
Definition ex_counts : BucketCount := mkBucketCount ex_cfg (<[1 := 1%nat]> ∅).
Definition ex_xs : list (Z * Q) := [(1, 5%Q); (2, 4%Q); (3, 3%Q)].

(** A witness of [into_sorted_vec_min_top_n_docs]: three documents, two of
    them near-duplicates, [top_n = 2], [de_rank_similar] set. *)
Lemma into_sorted_vec_min_top_n_docs_witness :
  new ex_tgt 2 ex_cfg = Some (ex_bc 2) /\
  (let out := into_sorted_vec pop_first_max (list Z) [] exact_table_contains exact_table_insert
                (insert_all (ex_bc 2) [ex_d1; ex_d2; ex_d3]) true in
   length out = Nat.min 2 (length [ex_d1; ex_d2; ex_d3]) /\
   exists rest, Permutation [ex_d1; ex_d2; ex_d3] (out ++ rest)).
Proof.
  assert (H : new ex_tgt 2 ex_cfg = Some (ex_bc 2)) by (vm_compute; reflexivity).
  split; [exact H|].
  exact (into_sorted_vec_min_top_n_docs pop_first_max pop_first_max_spec (list Z) []
           exact_table_contains exact_table_insert ex_tgt 2 ex_cfg [ex_d1; ex_d2; ex_d3] (ex_bc 2)
           true H).
Defined.

(** A witness of [into_sorted_vec_keeps_all_below_top_n]: [top_n = 3];
    [ex_d2] is deferred as a near-duplicate of [ex_d1]. *)
Lemma into_sorted_vec_keeps_all_below_top_n_witness :
  new ex_tgt 3 ex_cfg = Some (ex_bc 3) /\ (length [ex_d1; ex_d2; ex_d3] <= 3)%nat /\
  (let c' := insert_all (ex_bc 3) [ex_d1; ex_d2; ex_d3] in
   let out := into_sorted_vec pop_first_max (list Z) [] exact_table_contains exact_table_insert
                c' true in
   Permutation [ex_d1; ex_d2; ex_d3] out /\
   let '(res, simhash_dups) :=
     sorted_loop pop_first_max (list Z) exact_table_contains exact_table_insert
       (length (documents c')) true (top_n c') (count c') (documents c') [] [] [] in
   out = map doc (res ++ simhash_dups) /\
   Forall (fun x => simhash (hashes (doc x)) <> 0) simhash_dups /\
   (true = false -> simhash_dups = [])).
Proof.
  assert (H : new ex_tgt 3 ex_cfg = Some (ex_bc 3)) by (vm_compute; reflexivity).
  split; [exact H|]. split; [simpl; lia|].
  exact (into_sorted_vec_keeps_all_below_top_n pop_first_max pop_first_max_spec (list Z) []
           exact_table_contains exact_table_insert ex_tgt 3 ex_cfg [ex_d1; ex_d2; ex_d3] (ex_bc 3)
           true H ltac:(simpl; lia)).
Defined.

(** A witness of [merge_fruits_page_size]: two segment fruits, [top_n = 1],
    [offset = 1]. *)
Lemma merge_fruits_page_size_witness :
  pop_max_spec pop_first_max /\
  (N.of_nat (td_top_n ex_td) + N.of_nat (td_offset ex_td) < usize_modulus)%N /\
  (merge_fruits pop_first_max (list Z) [] exact_table_contains exact_table_insert ex_tgt ex_td
     [[ex_d1; ex_d2]; [ex_d3]] = None <->
     (td_top_n ex_td + td_offset ex_td = 0)%nat \/ heap_ok ex_tgt (td_collector_config ex_td) = false) /\
  forall ps, merge_fruits pop_first_max (list Z) [] exact_table_contains exact_table_insert ex_tgt
               ex_td [[ex_d1; ex_d2]; [ex_d3]] = Some ps ->
    length ps = Nat.min (td_top_n ex_td) (length (concat [[ex_d1; ex_d2]; [ex_d3]]) - td_offset ex_td) /\
    exists ds rest, ps = map to_pointer ds /\ Permutation (concat [[ex_d1; ex_d2]; [ex_d3]]) (ds ++ rest).
Proof.
  assert (Hsm : (N.of_nat (td_top_n ex_td) + N.of_nat (td_offset ex_td) < usize_modulus)%N)
    by (vm_compute; reflexivity).
  split; [exact pop_first_max_spec|]. split; [exact Hsm|].
  exact (merge_fruits_page_size pop_first_max pop_first_max_spec (list Z) []
           exact_table_contains exact_table_insert ex_tgt ex_td [[ex_d1; ex_d2]; [ex_d3]] Hsm).
Defined.


(** A witness of [segment_collector_first_docs]: [max_docs] of 4 documents
    over 2 segments lets the segment take 2 of the 3 documents fed to it. *)
Lemma segment_collector_first_docs_witness :
  for_segment ex_tgt ex_td_max 0 = Some (mkTopSegmentCollector (Some 2%nat) 0 0 (ex_bc 2)) /\
  (let sc' := tweaked_collect_all ex_read ex_tweak
                (mkTopSegmentCollector (Some 2%nat) 0 0 (ex_bc 2)) ex_xs in
   let taken_docs := map (seg_doc_of ex_read ex_tweak 0) (take 2 ex_xs) in
   num_docs_taken sc' = Nat.min 2 (length ex_xs) /\
   bucket_collector sc' = insert_all (ex_bc 2) taken_docs /\
   forall (pop_max : list ScoredDoc -> option (ScoredDoc * list ScoredDoc))
          (Hpop : pop_max_spec pop_max)
          (SimTable : Type) (sim_default : SimTable)
          (sim_contains : SimTable -> Z -> bool) (sim_insert : SimTable -> Z -> SimTable),
     let out := harvest pop_max SimTable sim_default sim_contains sim_insert sc' in
     length out = Nat.min (N.to_nat ((N.of_nat 1 + N.of_nat 1) mod usize_modulus)%N)
                    (Nat.min 2 (length ex_xs)) /\
     exists rest, Permutation taken_docs (out ++ rest)).
Proof.
  assert (H : for_segment ex_tgt ex_td_max 0 =
              Some (mkTopSegmentCollector (Some 2%nat) 0 0 (ex_bc 2)))
    by (vm_compute; reflexivity).
  split; [exact H|].
  exact (segment_collector_first_docs ex_read ex_tweak ex_tgt ex_td_max 0 _ ex_xs H).
Defined.

(** A witness of [adjust_score_bounded_monotone]: a document whose site was
    taken once. *)
Lemma adjust_score_bounded_monotone_witness :
  cfg_nonneg (config (bucket_count_new ex_cfg)) /\ (0 <= score (doc (scored_of ex_d1)))%Q /\
  (0 <= adjusted_score (adjust_score (bucket_count_new ex_cfg) (scored_of ex_d1))
     <= score (doc (scored_of ex_d1)))%Q /\
  (config ex_counts = config (bucket_count_new ex_cfg) ->
   counts_le (bucket_count_new ex_cfg) ex_counts ->
   adjusted_score (adjust_score ex_counts (scored_of ex_d1))
     <= adjusted_score (adjust_score (bucket_count_new ex_cfg) (scored_of ex_d1)))%Q.
Proof.
  assert (H1 : cfg_nonneg (config (bucket_count_new ex_cfg)))
    by (vm_compute; repeat split; discriminate).
  assert (H2 : (0 <= score (doc (scored_of ex_d1)))%Q) by (vm_compute; discriminate).
  split; [exact H1|]. split; [exact H2|].
  exact (adjust_score_bounded_monotone (bucket_count_new ex_cfg)
           ex_counts (scored_of ex_d1) H1 H2).
Defined.

End CollectorExtraClaims.

Module SegmentsExtras.
Import Segments SegmentsProofs.

(** Total number of documents of a list of segments. *)
Definition sumdocs (l : list SegmentMeta) : Z := fold_right (fun s acc => num_docs s + acc) 0 l.

(** The largest [num_docs] of a list of segments. *)
Definition maxdocs (l : list SegmentMeta) : Z := fold_right (fun s acc => Z.max (num_docs s) acc) 0 l.

(** Each candidate's [num_docs] counts the documents of its segments. *)
Definition sums_exact (ms : list SegmentMergeCandidate) : Prop :=
  Forall (fun m => cand_num_docs m = sumdocs (cand_segments m)) ms.

(** No two candidates' [num_docs] differ by more than [D]. *)
Definition balanced (D : Z) (ms : list SegmentMergeCandidate) : Prop :=
  Forall (fun a => Forall (fun b => cand_num_docs a <= cand_num_docs b + D) ms) ms.

Definition pos_segments (ms : list SegmentMergeCandidate) : Prop :=
  Forall (fun m => Forall (fun s => 0 < num_docs s) (cand_segments m)) ms.

(** While some candidate is empty, no candidate holds two segments. *)
Definition spread (ms : list SegmentMergeCandidate) : Prop :=
  forall j e, ms !! j = Some e -> cand_segments e = [] ->
  Forall (fun m => (length (cand_segments m) <= 1)%nat) ms.

Lemma num_docs_nonneg (s : SegmentMeta) : 0 <= num_docs s.
Proof. unfold num_docs. lia. Qed.

Lemma sumdocs_app (l1 l2 : list SegmentMeta) : sumdocs (l1 ++ l2) = sumdocs l1 + sumdocs l2.
Proof. induction l1 as [|a l1 IH]; simpl; [reflexivity|]. rewrite IH. lia. Qed.

Lemma sumdocs_nonneg (l : list SegmentMeta) : 0 <= sumdocs l.
Proof. induction l as [|a l IH]; simpl; [lia|]. pose proof (num_docs_nonneg a). lia. Qed.

Lemma sumdocs_perm (l l' : list SegmentMeta) : Permutation l l' -> sumdocs l = sumdocs l'.
Proof. induction 1; simpl; lia. Qed.

Lemma sumdocs_length_docs (l : list SegmentMeta) :
  Z.of_nat (length (concat (map seg_docs l))) = sumdocs l.
Proof.
  induction l as [|a l IH]; simpl; [reflexivity|].
  rewrite length_app, Nat2Z.inj_add, IH. reflexivity.
Qed.

Lemma sumdocs_in_concat (ms : list SegmentMergeCandidate) (b : SegmentMergeCandidate) :
  In b ms -> sumdocs (cand_segments b) <= sumdocs (concat (map cand_segments ms)).
Proof.
  induction ms as [|m ms IH]; simpl; [contradiction|].
  rewrite sumdocs_app. pose proof (sumdocs_nonneg (cand_segments m)).
  pose proof (sumdocs_nonneg (concat (map cand_segments ms))).
  intros [->|Hm]; [lia|]. specialize (IH Hm). lia.
Qed.

Lemma maxdocs_ge (l : list SegmentMeta) (s : SegmentMeta) : In s l -> num_docs s <= maxdocs l.
Proof.
  induction l as [|a l IH]; simpl; [contradiction|].
  intros [->|H]; [lia|]. specialize (IH H). lia.
Qed.

Lemma maxdocs_nonneg (l : list SegmentMeta) : 0 <= maxdocs l.
Proof. induction l as [|a l IH]; simpl; lia. Qed.

Lemma first_min_from_spec (t : list SegmentMergeCandidate) (j best : nat) (v : Z) :
  (first_min_from t j best v = best /\ Forall (fun c => v <= cand_num_docs c) t) \/
  (exists i c, first_min_from t j best v = (j + i)%nat /\ t !! i = Some c /\
     cand_num_docs c <= v /\ Forall (fun c' => cand_num_docs c <= cand_num_docs c') t).
Proof.
  revert j best v. induction t as [|c t IH]; intros j best v; simpl.
  - left. split; [reflexivity | constructor].
  - destruct (Z.ltb_spec (cand_num_docs c) v) as [Hlt|Hge].
    + destruct (IH (S j) j (cand_num_docs c)) as [[-> HF]|(i & c' & -> & Hi & Hc' & HF)].
      * right. exists 0%nat, c. split; [lia|]. split; [reflexivity|]. split; [lia|].
        constructor; [lia | exact HF].
      * right. exists (S i), c'. split; [lia|]. split; [exact Hi|]. split; [lia|].
        constructor; [lia | exact HF].
    + destruct (IH (S j) best v) as [[-> HF]|(i & c' & -> & Hi & Hc' & HF)].
      * left. split; [reflexivity|]. constructor; [lia | exact HF].
      * right. exists (S i), c'. split; [lia|]. split; [exact Hi|]. split; [lia|].
        constructor; [lia | exact HF].
Qed.

(** [min_by] on [num_docs] picks a candidate with the fewest documents. *)
Lemma first_min_spec (ms : list SegmentMergeCandidate) (i : nat) :
  first_min ms = Some i ->
  exists b, ms !! i = Some b /\ Forall (fun c => cand_num_docs b <= cand_num_docs c) ms.
Proof.
  destruct ms as [|c t]; simpl; [discriminate|]. intros H. injection H as <-.
  destruct (first_min_from_spec t 1 0 (cand_num_docs c))
    as [[-> HF]|(k & c' & -> & Hk & Hc' & HF)].
  - exists c. split; [reflexivity|]. constructor; [lia | exact HF].
  - exists c'. split; [exact Hk|]. constructor; [lia | exact HF].
Qed.

Lemma assign_some (ms ms' : list SegmentMergeCandidate) (s : SegmentMeta) :
  assign ms s = Some ms' ->
  exists i b, ms !! i = Some b /\ Forall (fun c => cand_num_docs b <= cand_num_docs c) ms /\
    ms' = <[i := mkSegmentMergeCandidate ((cand_num_docs b + num_docs s) mod 2 ^ 32)
                                         (cand_segments b ++ [s])]> ms.
Proof.
  unfold assign. destruct (first_min ms) as [i|] eqn:Ei; [|discriminate].
  destruct (ms !! i) as [b|] eqn:Eb; [|discriminate]. intros H. injection H as <-.
  destruct (first_min_spec ms i Ei) as (b' & Eb' & HF). rewrite Eb in Eb'. injection Eb' as <-.
  exists i, b. auto.
Qed.

Lemma assign_invariants (D : Z) (ms ms' : list SegmentMergeCandidate) (s : SegmentMeta) :
  assign ms s = Some ms' ->
  sums_exact ms -> balanced D ms -> num_docs s <= D ->
  sumdocs (concat (map cand_segments ms)) + num_docs s < 2 ^ 32 ->
  sums_exact ms' /\ balanced D ms' /\
  (pos_segments ms -> 0 < num_docs s -> spread ms -> pos_segments ms' /\ spread ms').
Proof.
  intros Ha Hs Hb HD Hbound.
  destruct (assign_some ms ms' s Ha) as (i & b & Eb & Hmin & ->).
  assert (Hin : In b ms) by (apply list_elem_of_In; eapply list_elem_of_lookup_2; exact Eb).
  pose proof (sumdocs_in_concat ms b Hin) as Hsub.
  pose proof (num_docs_nonneg s) as Hs0.
  assert (Hbnum : cand_num_docs b = sumdocs (cand_segments b))
    by (exact (Forall_lookup_1 _ _ _ _ Hs Eb)).
  pose proof (sumdocs_nonneg (cand_segments b)).
  assert (Hmod : (cand_num_docs b + num_docs s) mod 2 ^ 32 = cand_num_docs b + num_docs s)
    by (apply Z.mod_small; lia).
  rewrite Hmod.
  split; [|split].
  - apply Forall_insert; [exact Hs|]. simpl. rewrite sumdocs_app. simpl. lia.
  - unfold balanced. apply Forall_insert.
    + eapply Forall_impl; [exact Hb|]. intros a Ha'. apply Forall_insert; [exact Ha'|].
      simpl. pose proof (Forall_lookup_1 _ _ _ _ Ha' Eb) as Hab. simpl in Hab. lia.
    + simpl. apply Forall_insert; [|simpl; lia].
      eapply Forall_impl; [exact Hmin|]. intros c Hc. simpl in Hc |- *. lia.
  - intros Hpos Hs1 Hsp. split.
    + apply Forall_insert; [exact Hpos|]. simpl. apply Forall_app. split.
      * exact (Forall_lookup_1 _ _ _ _ Hpos Eb).
      * constructor; [exact Hs1 | constructor].
    + intros j e Hj He.
      assert (Hilt : (i < length ms)%nat) by (eapply lookup_lt_Some; exact Eb).
      destruct (decide (i = j)) as [<-|Hne].
      * rewrite list_lookup_insert_eq in Hj by exact Hilt. injection Hj as <-.
        simpl in He. destruct (cand_segments b); discriminate.
      * rewrite list_lookup_insert_ne in Hj by exact Hne.
        pose proof (Hsp j e Hj He) as Hall.
        apply Forall_insert; [exact Hall|]. simpl.
        pose proof (Forall_lookup_1 _ _ _ _ Hmin Hj) as Hbe. simpl in Hbe.
        pose proof (Forall_lookup_1 _ _ _ _ Hs Hj) as He0. simpl in He0.
        rewrite He in He0. simpl in He0.
        pose proof (Forall_lookup_1 _ _ _ _ Hpos Eb) as Hbpos. simpl in Hbpos.
        destruct (cand_segments b) as [|x t] eqn:Ebs; [simpl; lia|].
        inversion Hbpos; subst. simpl in Hbnum.
        pose proof (sumdocs_nonneg t). lia.
Qed.

Lemma assign_all_invariants (D : Z) (segs : list SegmentMeta) (ms ms' : list SegmentMergeCandidate) :
  assign_all ms segs = Some ms' -> (0 < length ms)%nat ->
  sums_exact ms -> balanced D ms -> Forall (fun s => num_docs s <= D) segs ->
  sumdocs (concat (map cand_segments ms)) + sumdocs segs < 2 ^ 32 ->
  sums_exact ms' /\ balanced D ms' /\
  (pos_segments ms -> Forall (fun s => 0 < num_docs s) segs -> spread ms -> spread ms').
Proof.
  revert ms. induction segs as [|s segs IH]; intros ms Ha Hl Hs Hb HD Hbound; simpl in Ha.
  - injection Ha as <-. auto.
  - destruct (assign_spec ms s Hl) as (ms1 & Ha1 & Hl1 & Hp1).
    rewrite Ha1 in Ha. inversion HD as [|? ? HDs HDt]; subst.
    simpl in Hbound. pose proof (num_docs_nonneg s). pose proof (sumdocs_nonneg segs).
    destruct (assign_invariants D ms ms1 s Ha1 Hs Hb HDs ltac:(lia)) as (Hs1 & Hb1 & Hsp1).
    assert (Hsum1 : sumdocs (concat (map cand_segments ms1)) =
                    sumdocs (concat (map cand_segments ms)) + num_docs s).
    { rewrite (sumdocs_perm _ _ Hp1), sumdocs_app. simpl. lia. }
    destruct (IH ms1 Ha ltac:(lia) Hs1 Hb1 HDt ltac:(lia)) as (Hs2 & Hb2 & Hsp2).
    split; [exact Hs2|]. split; [exact Hb2|].
    intros Hpos Hsegs Hsp. inversion Hsegs; subst.
    destruct (Hsp1 Hpos ltac:(assumption) Hsp) as [Hpos1 Hspr1].
    exact (Hsp2 Hpos1 ltac:(assumption) Hspr1).
Qed.

Lemma Forall_repeat_empty (P : SegmentMergeCandidate -> Prop) (k : nat) :
  P empty_candidate -> Forall P (repeat empty_candidate k).
Proof. intros HP. induction k; simpl; constructor; auto. Qed.

(** The initial candidates satisfy every invariant. *)
Lemma repeat_empty_invariants (D : Z) (k : nat) :
  0 <= D ->
  sums_exact (repeat empty_candidate k) /\ balanced D (repeat empty_candidate k) /\
  pos_segments (repeat empty_candidate k) /\ spread (repeat empty_candidate k).
Proof.
  intros HD. split; [|split; [|split]].
  - apply Forall_repeat_empty. reflexivity.
  - apply Forall_repeat_empty. apply Forall_repeat_empty. simpl. lia.
  - apply Forall_repeat_empty. constructor.
  - intros j e _ _. apply Forall_repeat_empty. simpl. lia.
Qed.

Lemma Forall2_In_left {A B} (R : A -> B -> Prop) (l1 : list A) (l2 : list B) (x : A) :
  Forall2 R l1 l2 -> In x l1 -> exists y, In y l2 /\ R x y.
Proof.
  induction 1 as [|a b l1 l2 Hab _ IH]; simpl; [contradiction|].
  intros [->|Hx]; [exists b; auto|]. destruct (IH Hx) as (y & Hy & Hr). exists y. auto.
Qed.

(** The segment that tantivy creates for a bucket holds the bucket's documents. *)
Lemma tantivy_merge_new_docs (bs R news current : list SegmentMeta) :
  Permutation current (bs ++ R ++ news) -> NoDup (map seg_id current) ->
  exists nw, Permutation (tantivy_merge (map seg_id bs) current) (R ++ news ++ [nw]) /\
             NoDup (map seg_id (tantivy_merge (map seg_id bs) current)) /\
             Permutation (seg_docs nw) (concat (map seg_docs bs)).
Proof.
  intros HP HN.
  destruct (tantivy_merge_step bs R news current HP HN) as (nw & HP' & HN').
  assert (HN0 : NoDup (map seg_id (bs ++ R ++ news)))
    by (rewrite <- (Permutation_map seg_id HP); exact HN).
  rewrite map_app in HN0. apply NoDup_app in HN0 as (_ & Hdisj & _).
  assert (Hf : Permutation (List.filter (mem_id (map seg_id bs)) current) bs).
  { etransitivity; [apply filter_perm; exact HP|].
    rewrite List.filter_app.
    rewrite (filter_all_true _ bs).
    2:{ intros x Hx. apply mem_id_In, in_map. exact Hx. }
    rewrite (filter_all_false _ (R ++ news)).
    2:{ intros x Hx. destruct (mem_id _ x) eqn:E; [|reflexivity].
        apply mem_id_In in E. exfalso. apply (Hdisj (seg_id x)).
        - apply list_elem_of_In. exact E.
        - apply list_elem_of_In. apply in_map. exact Hx. }
    rewrite app_nil_r. reflexivity. }
  set (nw0 := mkSegmentMeta (max_id current + 1)
                (concat (map seg_docs (List.filter (mem_id (map seg_id bs)) current)))).
  assert (Ht : tantivy_merge (map seg_id bs) current =
               List.filter (fun s => negb (mem_id (map seg_id bs) s)) current ++ [nw0])
    by reflexivity.
  assert (Hrest : Permutation (List.filter (fun s => negb (mem_id (map seg_id bs) s)) current)
                              (R ++ news)).
  { etransitivity; [apply filter_perm; exact HP|].
    rewrite List.filter_app.
    rewrite (filter_all_false _ bs).
    2:{ intros x Hx. apply negb_false_iff, mem_id_In, in_map. exact Hx. }
    simpl. rewrite filter_all_true; [reflexivity|]. intros x Hx. apply negb_true_iff.
    destruct (mem_id _ x) eqn:E; [|reflexivity].
    apply mem_id_In in E. exfalso. apply (Hdisj (seg_id x)).
    - apply list_elem_of_In. exact E.
    - apply list_elem_of_In. apply in_map. exact Hx. }
  exists nw0. split; [|split; [exact HN'|]].
  - rewrite Ht, Hrest, <- app_assoc. reflexivity.
  - simpl. rewrite Hf. reflexivity.
Qed.

(** Merging the buckets one after the other adds one segment per bucket,
    holding that bucket's documents. *)
Lemma merge_fold_docs (rem : list SegmentMergeCandidate) (current news : list SegmentMeta) :
  Permutation current (concat (map cand_segments rem) ++ news) ->
  NoDup (map seg_id current) ->
  exists added,
    Permutation (fold_left (fun idx m => tantivy_merge (map seg_id (cand_segments m)) idx) rem current)
                (news ++ added) /\
    Forall2 (fun nw m => Permutation (seg_docs nw) (concat (map seg_docs (cand_segments m)))) added rem.
Proof.
  revert current news. induction rem as [|m rem IH]; intros current news HP HN; simpl.
  - exists []. rewrite app_nil_r. simpl in HP. split; [exact HP | constructor].
  - simpl in HP. rewrite <- app_assoc in HP.
    destruct (tantivy_merge_new_docs _ _ _ _ HP HN) as (nw & HP' & HN' & Hnw).
    destruct (IH _ (news ++ [nw]) HP' HN') as (added & Hf & HF2).
    exists (nw :: added). split.
    + rewrite Hf, <- app_assoc. reflexivity.
    + constructor; assumption.
Qed.

Lemma concat_le_length (ms : list SegmentMergeCandidate) :
  Forall (fun m => (length (cand_segments m) <= 1)%nat) ms ->
  (length (concat (map cand_segments ms)) <= length ms)%nat.
Proof.
  induction 1 as [|m ms Hm _ IH]; simpl; [lia|]. rewrite length_app. lia.
Qed.

Lemma concat_lt_length (ms : list SegmentMergeCandidate) (j : nat) (e : SegmentMergeCandidate) :
  Forall (fun m => (length (cand_segments m) <= 1)%nat) ms ->
  ms !! j = Some e -> cand_segments e = [] ->
  (length (concat (map cand_segments ms)) < length ms)%nat.
Proof.
  intros HF. revert j. induction HF as [|m ms Hm HF IH]; intros j Hj He; [discriminate|].
  simpl. rewrite length_app. destruct j as [|j]; simpl in Hj.
  - injection Hj as ->. rewrite He. simpl. pose proof (concat_le_length ms HF). lia.
  - specialize (IH j Hj He). lia.
Qed.

(** The candidates after the greedy assignment of [merge_into_max_segments]. *)
Lemma merge_into_max_segments_buckets (max_n : Z) (idx : list SegmentMeta) :
  0 < max_n < 2 ^ 32 -> max_n < Z.of_nat (length idx) < 2 ^ 32 -> sumdocs idx < 2 ^ 32 ->
  exists buckets,
    merge_into_max_segments max_n idx = Some (merge_buckets buckets idx) /\
    length buckets = Z.to_nat ((max_n + 1) / 2) /\
    Permutation (concat (map cand_segments buckets)) idx /\
    sums_exact buckets /\ balanced (maxdocs idx) buckets /\
    (Forall (fun s => 0 < num_docs s) idx -> spread buckets).
Proof.
  intros Hmax Hgt Hsum.
  unfold merge_into_max_segments.
  replace (negb (0 <? max_n)) with false by (symmetry; apply negb_false_iff, Z.ltb_lt; lia).
  replace (Z.of_nat (length idx) <=? max_n) with false by (symmetry; apply Z.leb_gt; lia).
  assert (Hmod : (max_n + 1) mod 2 ^ 32 = max_n + 1) by (apply Z.mod_small; lia).
  rewrite Hmod.
  set (k := Z.to_nat ((max_n + 1) / 2)).
  assert (Hk : (0 < k)%nat).
  { subst k. assert (1 <= (max_n + 1) / 2) by (apply Z.div_le_lower_bound; lia). lia. }
  destruct (assign_all_spec (sort_desc idx) (repeat empty_candidate k))
    as (buckets & Hb & Hbl & Hbp); [rewrite repeat_length; exact Hk|].
  rewrite Hb. rewrite repeat_length in Hbl.
  rewrite concat_repeat_empty, sort_desc_perm in Hbp. simpl in Hbp.
  destruct (repeat_empty_invariants (maxdocs idx) k (maxdocs_nonneg idx))
    as (Hs0 & Hb0 & Hp0 & Hsp0).
  destruct (assign_all_invariants (maxdocs idx) (sort_desc idx) _ buckets Hb
              ltac:(rewrite repeat_length; exact Hk) Hs0 Hb0) as (Hs1 & Hb1 & Hsp1).
  { apply List.Forall_forall. intros s Hs. apply maxdocs_ge.
    apply (Permutation_in s (sort_desc_perm idx)). exact Hs. }
  { rewrite concat_repeat_empty, (sumdocs_perm _ _ (sort_desc_perm idx)). simpl. lia. }
  exists buckets. split; [reflexivity|]. split; [exact Hbl|]. split; [exact Hbp|].
  split; [exact Hs1|]. split; [exact Hb1|].
  intros Hpos. apply Hsp1; [exact Hp0| |exact Hsp0].
  apply List.Forall_forall. intros s Hs. rewrite List.Forall_forall in Hpos. apply Hpos.
  apply (Permutation_in s (sort_desc_perm idx)). exact Hs.
Qed.

(** Each segment left by [merge_buckets] is the merge of one non-empty
    bucket and holds that bucket's [num_docs] documents. *)
Lemma merge_buckets_segments (buckets : list SegmentMergeCandidate) (idx : list SegmentMeta) :
  Permutation (concat (map cand_segments buckets)) idx -> NoDup (map seg_id idx) ->
  sums_exact buckets ->
  length (merge_buckets buckets idx) =
    length (List.filter (fun m => negb (bool_decide (cand_segments m = []))) buckets) /\
  forall a, In a (merge_buckets buckets idx) ->
    exists m, In m buckets /\ num_docs a = cand_num_docs m.
Proof.
  intros Hbp HN Hs.
  set (rem := List.filter (fun m => negb (bool_decide (cand_segments m = []))) buckets).
  destruct (merge_fold_docs rem idx []) as (added & Hf & HF2).
  { rewrite app_nil_r. subst rem. rewrite concat_filter_nonempty. symmetry. exact Hbp. }
  { exact HN. }
  unfold merge_buckets. fold rem. split.
  - rewrite (Permutation_length Hf). simpl. exact (Forall2_length _ _ _ HF2).
  - intros a Ha. apply (Permutation_in a Hf) in Ha. simpl in Ha.
    destruct (Forall2_In_left _ _ _ a HF2 Ha) as (m & Hm & Hdocs).
    assert (Hmb : In m buckets) by (subst rem; apply filter_In in Hm; tauto).
    exists m. split; [exact Hmb|].
    unfold sums_exact in Hs. rewrite List.Forall_forall in Hs. rewrite (Hs m Hmb).
    unfold num_docs. rewrite (Permutation_length Hdocs). apply sumdocs_length_docs.
Qed.

End SegmentsExtras.

Module SegmentsExtraClaims.
Import Segments SegmentsProofs SegmentsExtras.

(** Greedy balance of [merge_into_max_segments]: when the index has more
    than [max_n] segments (and the [u32] document counts do not overflow),
    the document counts of any two segments left after the merge differ by
    at most the largest number of documents of one input segment. *)
Theorem merge_into_max_segments_balanced (max_n : Z) (idx : list SegmentMeta) :
  0 < max_n < 2 ^ 32 -> max_n < Z.of_nat (length idx) < 2 ^ 32 ->
  NoDup (map seg_id idx) -> sumdocs idx < 2 ^ 32 ->
  exists idx', merge_into_max_segments max_n idx = Some idx' /\
    forall a b, In a idx' -> In b idx' -> num_docs a <= num_docs b + maxdocs idx.
Proof.
  intros Hmax Hgt HN Hsum.
  destruct (merge_into_max_segments_buckets max_n idx Hmax Hgt Hsum)
    as (buckets & Hm & _ & Hbp & Hs & Hb & _).
  destruct (merge_buckets_segments buckets idx Hbp HN Hs) as [_ Hseg].
  exists (merge_buckets buckets idx). split; [exact Hm|].
  intros a b Ha Hb'.
  destruct (Hseg a Ha) as (ma & Hma & ->). destruct (Hseg b Hb') as (mb & Hmb & ->).
  unfold balanced in Hb. rewrite List.Forall_forall in Hb.
  specialize (Hb ma Hma). rewrite List.Forall_forall in Hb. exact (Hb mb Hmb).
Qed.

Definition ex_idx : list SegmentMeta :=
  [mkSegmentMeta 1 [1]; mkSegmentMeta 2 [2;3;4;5;6]; mkSegmentMeta 3 [7;8;9];
   mkSegmentMeta 4 [10;11]; mkSegmentMeta 5 [12;13;14;15]].

(** A witness of [merge_into_max_segments_balanced]: five segments merged
    into at most four. *)
Lemma merge_into_max_segments_balanced_witness :
  (0 < 4 < 2 ^ 32 /\ 4 < Z.of_nat (length ex_idx) < 2 ^ 32 /\
   NoDup (map seg_id ex_idx) /\ sumdocs ex_idx < 2 ^ 32) /\
  exists idx', merge_into_max_segments 4 ex_idx = Some idx' /\
    forall a b, In a idx' -> In b idx' -> num_docs a <= num_docs b + maxdocs ex_idx.
Proof.
  assert (H : 0 < 4 < 2 ^ 32 /\ 4 < Z.of_nat (length ex_idx) < 2 ^ 32 /\
              NoDup (map seg_id ex_idx) /\ sumdocs ex_idx < 2 ^ 32).
  { split; [lia|]. split; [vm_compute; split; reflexivity|]. split.
    - apply (bool_decide_unpack _). vm_compute. reflexivity.
    - vm_compute. reflexivity. }
  split; [exact H|].
  destruct H as (H1 & H2 & H3 & H4).
  exact (merge_into_max_segments_balanced 4 ex_idx H1 H2 H3 H4).
Defined.

(** Exact segment count of [merge_into_max_segments]: when the index has
    more than [max_n] segments, each holding at least one document (and
    the [u32] document counts do not overflow), every one of the
    [ceil(max_n / 2)] buckets receives a segment, so exactly
    [ceil(max_n / 2)] segments are left. *)
Theorem merge_into_max_segments_exact_count (max_n : Z) (idx : list SegmentMeta) :
  0 < max_n < 2 ^ 32 -> max_n < Z.of_nat (length idx) < 2 ^ 32 ->
  NoDup (map seg_id idx) -> sumdocs idx < 2 ^ 32 ->
  Forall (fun s => 0 < num_docs s) idx ->
  exists idx', merge_into_max_segments max_n idx = Some idx' /\
    Z.of_nat (length idx') = (max_n + 1) / 2.
Proof.
  intros Hmax Hgt HN Hsum Hpos.
  destruct (merge_into_max_segments_buckets max_n idx Hmax Hgt Hsum)
    as (buckets & Hm & Hbl & Hbp & Hs & _ & Hsp).
  specialize (Hsp Hpos).
  destruct (merge_buckets_segments buckets idx Hbp HN Hs) as [Hlen _].
  exists (merge_buckets buckets idx). split; [exact Hm|].
  rewrite Hlen, filter_all_true.
  - rewrite Hbl. assert (0 <= (max_n + 1) / 2) by (apply Z.div_pos; lia). lia.
  - intros x Hx. apply negb_true_iff, bool_decide_eq_false_2. intros Hemp.
    apply list_elem_of_In, list_elem_of_lookup_1 in Hx as (j & Hj).
    pose proof (concat_lt_length buckets j x (Hsp j x Hj Hemp) Hj Hemp) as Hlt.
    rewrite (Permutation_length Hbp), Hbl in Hlt.
    assert ((max_n + 1) / 2 <= max_n) by (apply Z.div_le_upper_bound; lia).
    assert (0 <= (max_n + 1) / 2) by (apply Z.div_pos; lia). lia.
Qed.

(** A witness of [merge_into_max_segments_exact_count]: five non-empty
    segments with at most four allowed leave exactly two. *)
Lemma merge_into_max_segments_exact_count_witness :
  (0 < 4 < 2 ^ 32 /\ 4 < Z.of_nat (length ex_idx) < 2 ^ 32 /\
   NoDup (map seg_id ex_idx) /\ sumdocs ex_idx < 2 ^ 32 /\
   Forall (fun s => 0 < num_docs s) ex_idx) /\
  exists idx', merge_into_max_segments 4 ex_idx = Some idx' /\
    Z.of_nat (length idx') = (4 + 1) / 2.
Proof.
  assert (H : 0 < 4 < 2 ^ 32 /\ 4 < Z.of_nat (length ex_idx) < 2 ^ 32 /\
              NoDup (map seg_id ex_idx) /\ sumdocs ex_idx < 2 ^ 32 /\
              Forall (fun s => 0 < num_docs s) ex_idx).
  { split; [lia|]. split; [vm_compute; split; reflexivity|]. split.
    - apply (bool_decide_unpack _). vm_compute. reflexivity.
    - split; [vm_compute; reflexivity|].
      repeat constructor. }
  split; [exact H|].
  destruct H as (H1 & H2 & H3 & H4 & H5).
  exact (merge_into_max_segments_exact_count 4 ex_idx H1 H2 H3 H4 H5).
Defined.

End SegmentsExtraClaims.

Module IndexMergeExtras.
Import IndexMerge.

(** The segments of [other] that the loop of [merge] moves in: those whose
    id is not among the ids of [self]. *)
Definition new_segments (ids : list Z) (other_segments : list SegFiles) : list SegFiles :=
  List.filter (fun s => negb (existsb (Z.eqb (sf_id s)) ids)) other_segments.

(** The entry of [f] after the renames of the files [files]: the other
    index's file, when one of that name was moved. *)
Definition after_move (files : list string) (self_dir other_dir : Dir) (f : string) : option Entry :=
  if bool_decide (f ∈ files) then
    match other_dir !! f with Some e => Some e | None => self_dir !! f end
  else self_dir !! f.

Lemma move_files_spec (files : list string) (sd od : Dir) (f : string) :
  (move_files files sd od).1 !! f = after_move files sd od f /\
  (move_files files sd od).2 !! f = if bool_decide (f ∈ files) then None else od !! f.
Proof.
  revert sd od. induction files as [|file rest IH]; intros sd od; simpl.
  - unfold after_move. rewrite !bool_decide_eq_false_2 by (intros Hf; inversion Hf). auto.
  - destruct (od !! file) as [e|] eqn:Ef.
    + destruct (IH (<[file := e]> sd) (delete file od)) as [H1 H2].
      rewrite H1, H2. unfold after_move.
      destruct (decide (f = file)) as [->|Hne].
      * rewrite (lookup_delete_eq od file), (lookup_insert_eq sd file e), Ef.
        rewrite (bool_decide_eq_true_2 (file ∈ file :: rest)) by constructor.
        case_bool_decide; auto.
      * rewrite (lookup_delete_ne od file f), (lookup_insert_ne sd file f e) by congruence.
        assert (Hiff : f ∈ file :: rest <-> f ∈ rest)
          by (rewrite elem_of_cons; intuition congruence).
        do 2 case_bool_decide; try tauto; auto.
    + destruct (IH sd od) as [H1 H2]. rewrite H1, H2. unfold after_move.
      destruct (decide (f = file)) as [->|Hne].
      * rewrite Ef. rewrite (bool_decide_eq_true_2 (file ∈ file :: rest)) by constructor.
        case_bool_decide; auto.
      * assert (Hiff : f ∈ file :: rest <-> f ∈ rest)
          by (rewrite elem_of_cons; intuition congruence).
        do 2 case_bool_decide; try tauto; auto.
Qed.

Lemma merge_loop_spec (ids : list Z) (others : list SegFiles) (sd od : Dir) (meta : list SegFiles)
    (f : string) :
  (merge_loop ids others sd od meta).2 = meta ++ new_segments ids others /\
  (merge_loop ids others sd od meta).1.1 !! f =
    after_move (concat (map sf_files (new_segments ids others))) sd od f.
Proof.
  revert sd od meta. induction others as [|seg rest IH]; intros sd od meta; simpl.
  - rewrite app_nil_r. split; [reflexivity|]. unfold after_move.
    rewrite bool_decide_eq_false_2 by (intros Hf; inversion Hf). reflexivity.
  - unfold new_segments at 1 2. simpl.
    destruct (existsb (Z.eqb (sf_id seg)) ids); simpl.
    + apply IH.
    + pose proof (move_files_spec (sf_files seg) sd od f) as [H1 H2].
      destruct (move_files (sf_files seg) sd od) as [sd1 od1]. simpl in H1, H2.
      destruct (IH sd1 od1 (meta ++ [seg])) as [Hm Hf].
      split; [rewrite Hm, <- app_assoc; reflexivity|].
      rewrite Hf. fold (new_segments ids rest).
      set (R := concat (map sf_files (new_segments ids rest))).
      unfold after_move in H1 |- *.
      destruct (decide (f ∈ sf_files seg)) as [Hin|Hout].
      * rewrite bool_decide_eq_true_2 in H1, H2 by exact Hin.
        rewrite (bool_decide_eq_true_2 (f ∈ sf_files seg ++ R)) by (apply elem_of_app; auto).
        rewrite H2, <- H1. case_bool_decide; reflexivity.
      * rewrite bool_decide_eq_false_2 in H1, H2 by exact Hout.
        assert (Hiff : f ∈ sf_files seg ++ R <-> f ∈ R) by (rewrite elem_of_app; tauto).
        rewrite H2, H1. do 2 case_bool_decide; tauto.
Qed.

Lemma insert_by_max_doc_perm (s : SegFiles) (l : list SegFiles) :
  Permutation (insert_by_max_doc s l) (s :: l).
Proof.
  induction l as [|y t IH]; simpl; [reflexivity|].
  destruct (Z.leb _ _); [|reflexivity].
  etransitivity; [apply perm_skip; exact IH|]. apply perm_swap.
Qed.

Lemma sort_by_max_doc_desc_perm (l : list SegFiles) : Permutation (sort_by_max_doc_desc l) l.
Proof.
  unfold sort_by_max_doc_desc.
  assert (H : forall acc, Permutation (fold_left (fun acc s => insert_by_max_doc s acc) l acc)
                                      (l ++ acc)).
  { induction l as [|s l IH]; intros acc; simpl; [reflexivity|].
    rewrite IH, insert_by_max_doc_perm. apply Permutation_sym, Permutation_middle. }
  rewrite H, app_nil_r. reflexivity.
Qed.

Definition max_doc_desc (a b : SegFiles) : Prop := sf_max_doc b <= sf_max_doc a.

Lemma insert_by_max_doc_sorted (s : SegFiles) (l : list SegFiles) :
  Sorted max_doc_desc l -> Sorted max_doc_desc (insert_by_max_doc s l).
Proof.
  induction l as [|y t IH]; intros Hs; simpl; [repeat constructor|].
  destruct (Z.leb_spec (sf_max_doc s) (sf_max_doc y)) as [Hle|Hgt].
  - apply Sorted_inv in Hs as [Ht Hy]. constructor; [exact (IH Ht)|].
    destruct t as [|z t]; simpl.
    + constructor. exact Hle.
    + inversion Hy; subst.
      destruct (Z.leb _ _); constructor; unfold max_doc_desc in *; lia.
  - constructor; [exact Hs|]. constructor. unfold max_doc_desc. lia.
Qed.

Lemma sort_by_max_doc_desc_sorted (l : list SegFiles) : Sorted max_doc_desc (sort_by_max_doc_desc l).
Proof.
  unfold sort_by_max_doc_desc.
  assert (H : forall acc, Sorted max_doc_desc acc ->
             Sorted max_doc_desc (fold_left (fun acc s => insert_by_max_doc s acc) l acc)).
  { induction l as [|s l IH]; intros acc Hacc; simpl; [exact Hacc|].
    apply IH, insert_by_max_doc_sorted, Hacc. }
  apply H. constructor.
Qed.

(** [merge] writes into [meta.json] the ids of [self]'s segments and of the
    segments of [other] whose id [self] does not have (all of them, in a
    permutation), ordered by non-increasing [max_doc]. *)
Theorem merge_meta_json (self_dir : Dir) (self_segments : list SegFiles)
    (other_dir : Dir) (other_segments : list SegFiles) :
  exists meta,
    (merge self_dir self_segments other_dir other_segments).1 !! "meta.json" =
      Some (Meta (map sf_id meta)) /\
    Permutation meta (self_segments ++ new_segments (map sf_id self_segments) other_segments) /\
    Sorted (fun a b => sf_max_doc b <= sf_max_doc a) meta.
Proof.
  unfold merge.
  pose proof (merge_loop_spec (map sf_id self_segments) other_segments self_dir other_dir
                self_segments "meta.json") as [Hm _].
  destruct (merge_loop _ _ _ _ _) as [[sd od] meta]. simpl in Hm. subst meta. cbv beta iota.
  eexists. split; [simpl; apply lookup_insert_eq|].
  split; [apply sort_by_max_doc_desc_perm|].
  apply sort_by_max_doc_desc_sorted.
Qed.

(** Files of the merged directory other than [meta.json]: a file that no
    moved segment of [other] lists keeps [self]'s entry; a listed file that
    [other] has ends with [other]'s entry (the rename overwrites [self]'s
    file of the same name); a listed file [other] lacks keeps [self]'s
    entry. The other directory is emptied. *)
Theorem merge_segment_files (self_dir : Dir) (self_segments : list SegFiles)
    (other_dir : Dir) (other_segments : list SegFiles) (f : string) :
  f <> "meta.json" ->
  let moved := concat (map sf_files (new_segments (map sf_id self_segments) other_segments)) in
  let '(sd, od) := merge self_dir self_segments other_dir other_segments in
  od = ∅ /\
  (f ∉ moved -> sd !! f = self_dir !! f) /\
  (forall e, f ∈ moved -> other_dir !! f = Some e -> sd !! f = Some e) /\
  (f ∈ moved -> other_dir !! f = None -> sd !! f = self_dir !! f).
Proof.
  intros Hf moved. unfold merge.
  pose proof (merge_loop_spec (map sf_id self_segments) other_segments self_dir other_dir
                self_segments f) as [_ Hd].
  destruct (merge_loop _ _ _ _ _) as [[sd od] meta]. simpl in Hd.
  cbv beta iota. split; [reflexivity|].
  rewrite (lookup_insert_ne sd "meta.json" f) by congruence. fold moved in Hd.
  unfold after_move in Hd.
  split; [|split].
  - intros Hout. rewrite bool_decide_eq_false_2 in Hd by exact Hout. exact Hd.
  - intros e Hin Ho. rewrite bool_decide_eq_true_2 in Hd by exact Hin. rewrite Ho in Hd. exact Hd.
  - intros Hin Ho. rewrite bool_decide_eq_true_2 in Hd by exact Hin. rewrite Ho in Hd. exact Hd.
Qed.

Definition ex_self_dir : Dir :=
  <["1.store" := Data "self"]> (<["5.store" := Data "self"]> (<["meta.json" := Meta [1; 5]]> ∅)).
Definition ex_self_segments : list SegFiles := [mkSegFiles 1 ["1.store"] 5; mkSegFiles 5 ["5.store"] 2].
Definition ex_other_dir : Dir :=
  <["2.store" := Data "other"]> (<["5.store" := Data "other"]> (<["meta.json" := Meta [2]]> ∅)).
Definition ex_other_segments : list SegFiles := [mkSegFiles 2 ["2.store"; "5.store"] 9].

(** A witness of [merge_segment_files]: the other index's segment 2 lists
    [5.store], a name [self] uses too. *)
Lemma merge_segment_files_witness :
  "5.store" <> "meta.json" /\
  let moved := concat (map sf_files (new_segments (map sf_id ex_self_segments) ex_other_segments)) in
  let '(sd, od) := merge ex_self_dir ex_self_segments ex_other_dir ex_other_segments in
  od = ∅ /\
  ("5.store" ∉ moved -> sd !! "5.store" = ex_self_dir !! "5.store") /\
  (forall e, "5.store" ∈ moved -> ex_other_dir !! "5.store" = Some e -> sd !! "5.store" = Some e) /\
  ("5.store" ∈ moved -> ex_other_dir !! "5.store" = None -> sd !! "5.store" = ex_self_dir !! "5.store").
Proof.
  assert (H : "5.store" <> "meta.json") by discriminate.
  split; [exact H|].
  exact (merge_segment_files ex_self_dir ex_self_segments ex_other_dir ex_other_segments "5.store" H).
Defined.

End IndexMergeExtras.

Module RetrievalExtras.
Import Retrieval.

Section WithStore.
Variable retrieve_doc : DocAddress -> option RetrievedWebpage.
Variable generate_snippet : RetrievedWebpage -> option string.

Lemma with_snippets_none (pages : list RetrievedWebpage) :
  with_snippets generate_snippet pages = None <->
  Exists (fun p => generate_snippet p = None) pages.
Proof.
  induction pages as [|p pages IH]; simpl.
  - split; [discriminate | intros H; inversion H].
  - rewrite Exists_cons. destruct (generate_snippet p) as [sn|] eqn:E.
    + destruct (with_snippets generate_snippet pages) eqn:Er.
      * split; [discriminate|]. intros [H|H]; [discriminate|]. apply IH in H. discriminate.
      * split; [intros _; right; apply IH; reflexivity | reflexivity].
    + split; [intros _; left; reflexivity | reflexivity].
Qed.

Lemma with_snippets_some (pages out : list RetrievedWebpage) :
  with_snippets generate_snippet pages = Some out ->
  Forall2 (fun p q => generate_snippet p = Some (snippet q) /\ url q = url p) pages out.
Proof.
  revert out. induction pages as [|p pages IH]; intros out H; simpl in H.
  - injection H as <-. constructor.
  - destruct (generate_snippet p) as [sn|] eqn:E; [|discriminate].
    destruct (with_snippets generate_snippet pages) as [rest|] eqn:Er; [|discriminate].
    injection H as <-. constructor; [simpl; auto | apply IH; reflexivity].
Qed.

End WithStore.

(** Error behaviour of [retrieve_websites]: an address whose document
    cannot be retrieved is skipped, never an error; the call fails exactly
    when the snippet of one of the retrieved (and image-filtered) pages
    cannot be generated. On success every page carries the snippet
    generated for its document, in the order of the addresses. *)
Theorem retrieve_websites_errors :
  forall (retrieve_doc : DocAddress -> option RetrievedWebpage)
         (generate_snippet : RetrievedWebpage -> option string)
         (websites : list DocAddress) (terms : list string),
    (retrieve_websites retrieve_doc generate_snippet websites terms = None <->
     Exists (fun p => generate_snippet p = None)
       (map (filter_image terms) (omap retrieve_doc websites))) /\
    (forall pages, retrieve_websites retrieve_doc generate_snippet websites terms = Some pages ->
     Forall2 (fun p q => generate_snippet p = Some (snippet q) /\ url q = url p)
       (map (filter_image terms) (omap retrieve_doc websites)) pages).
Proof.
  intros retrieve_doc generate_snippet websites terms. unfold retrieve_websites. split.
  - apply with_snippets_none.
  - intros pages. apply with_snippets_some.
Qed.

Definition ex_page (n : Z) : RetrievedWebpage :=
  mkRetrievedWebpage (if Z.eqb n 1 then "a" else "b") "body" None "".

Definition ex_store (a : DocAddress) : option RetrievedWebpage :=
  if Z.eqb (doc_id a) 3 then None else Some (ex_page (doc_id a)).

(** The snippet generator fails on the page of url [b]. *)
Definition ex_snippet (p : RetrievedWebpage) : option string :=
  if String.eqb (url p) "b" then None else Some "snippet"%string.

(** A witness of [retrieve_websites_errors]: the address of document 3
    cannot be retrieved and is skipped; the page of document 2 has no
    snippet, so the call fails, while the call on documents 1 and 3
    succeeds. *)
Lemma retrieve_websites_errors_witness :
  retrieve_websites ex_store ex_snippet [mkDocAddress 0 1; mkDocAddress 0 3] [] =
    Some [mkRetrievedWebpage "a" "body" None "snippet"] /\
  retrieve_websites ex_store ex_snippet [mkDocAddress 0 1; mkDocAddress 0 2] [] = None /\
  Exists (fun p => ex_snippet p = None)
    (map (filter_image []) (omap ex_store [mkDocAddress 0 1; mkDocAddress 0 2])) /\
  Forall2 (fun p q => ex_snippet p = Some (snippet q) /\ url q = url p)
    (map (filter_image []) (omap ex_store [mkDocAddress 0 1; mkDocAddress 0 3]))
    [mkRetrievedWebpage "a" "body" None "snippet"].
Proof.
  assert (H1 : retrieve_websites ex_store ex_snippet [mkDocAddress 0 1; mkDocAddress 0 3] [] =
               Some [mkRetrievedWebpage "a" "body" None "snippet"]) by (vm_compute; reflexivity).
  assert (H2 : retrieve_websites ex_store ex_snippet [mkDocAddress 0 1; mkDocAddress 0 2] [] = None)
    by (vm_compute; reflexivity).
  split; [exact H1|]. split; [exact H2|]. split.
  - apply (proj1 (retrieve_websites_errors ex_store ex_snippet _ [])). exact H2.
  - exact (proj2 (retrieve_websites_errors ex_store ex_snippet _ []) _ H1).
Defined.

End RetrievalExtras.
